(** * kvlog: the log-record renderer of [kvlog/kvlog.go]

    A shallow embedding of [Writer.Write] and of the helpers it relies on.
    Go strings and byte slices are lists of bytes, Go [int]s are integers of
    [Z] (every number computed here is the length of a slice held in memory
    or a sum of a few of them, so the 64-bit range is never left), and the
    [bytes.Buffer] [sb] is the list of the writes made to it, in order. *)

From Stdlib Require Import Strings.Byte Strings.String.
From Stdlib Require Import ZArith List Bool Lia Arith.
Import ListNotations.

Local Open Scope Z_scope.

(** ** Bytes and strings *)

Definition bytes := list byte.

(** Numeric value of a byte. *)
Definition bv (b : byte) : Z := Z.of_N (Byte.to_N b).

(** Go's [len], as an [int]. *)
Definition len {A : Type} (l : list A) : Z := Z.of_nat (length l).

(** A string literal as its bytes. *)
Definition lit (s : string) : bytes := list_byte_of_string s.

Definition byte_eqb (a b : byte) : bool := Byte.eqb a b.

(** [strings.HasPrefix]. *)
Fixpoint HasPrefix (s p : bytes) : bool :=
  match p, s with
  | [], _ => true
  | _ :: _, [] => false
  | x :: p', y :: s' => byte_eqb x y && HasPrefix s' p'
  end.

(** [strings.Repeat(" ", n)]. *)
Definition spaces (n : nat) : bytes := repeat x20 n.

(** ** Character classes of the three regular expressions

    Go's [regexp] reads its input rune by rune, an invalid byte counting as
    U+FFFD.  Every class below is a set of ASCII characters or the complement
    of one, and no byte of a multi-byte or invalid sequence is ASCII, so
    matching byte by byte consumes exactly the same prefix. *)

(** [\d] *)
Definition is_digit (b : byte) : bool := (48 <=? bv b) && (bv b <=? 57).

(** [\s], that is [[\t\n\f\r ]] *)
Definition is_space (b : byte) : bool :=
  (bv b =? 9) || (bv b =? 10) || (bv b =? 12) || (bv b =? 13) || (bv b =? 32).

(** [[^\s,]] *)
Definition is_black (b : byte) : bool := negb (is_space b) && negb (bv b =? 44).

(** ** A backtracking matcher for the regular expressions in use

    [rmatch r s k] matches [r] at the start of [s] and hands what is left to
    the continuation [k]; alternatives are tried in the order of Go's
    leftmost-first semantics (greedy [?], [{n,m}] and [+]). *)

Inductive re : Type :=
| Cls (p : byte -> bool)
| Chr (c : byte)
| Seq (r1 r2 : re)
| Opt (r : re)
| Rep (p : byte -> bool) (lo hi : nat)
| Plus (p : byte -> bool).

Fixpoint rep_match (p : byte -> bool) (lo hi : nat) (s : bytes)
    (k : bytes -> option bytes) : option bytes :=
  let stop := if Nat.eqb lo 0 then k s else None in
  match hi, s with
  | S hi', c :: s' =>
      if p c then
        match rep_match p (Nat.pred lo) hi' s' k with
        | Some r => Some r
        | None => stop
        end
      else stop
  | _, _ => stop
  end.

Fixpoint star_match (p : byte -> bool) (s : bytes)
    (k : bytes -> option bytes) : option bytes :=
  match s with
  | c :: s' =>
      if p c then
        match star_match p s' k with
        | Some r => Some r
        | None => k s
        end
      else k s
  | [] => k s
  end.

Fixpoint rmatch (r : re) (s : bytes) (k : bytes -> option bytes)
    : option bytes :=
  match r with
  | Cls p => match s with
             | c :: s' => if p c then k s' else None
             | [] => None
             end
  | Chr c0 => match s with
              | c :: s' => if byte_eqb c c0 then k s' else None
              | [] => None
              end
  | Seq r1 r2 => rmatch r1 s (fun s' => rmatch r2 s' k)
  | Opt r1 => match rmatch r1 s k with
              | Some x => Some x
              | None => k s
              end
  | Rep p lo hi => rep_match p lo hi s k
  | Plus p => match s with
              | c :: s' => if p c then star_match p s' k else None
              | [] => None
              end
  end.

(** [re.Find(s)] for an expression anchored with [^]: the matched prefix, or
    nil when there is no match. *)
Definition Find (r : re) (s : bytes) : bytes :=
  match rmatch r s Some with
  | Some rest => firstn (length s - length rest) s
  | None => []
  end.

(** [re.FindStringSubmatch(s)], of which the code reads only element 0:
    [Some m] stands for a non-empty result whose element 0 is [m]. *)
Definition FindStringSubmatch (r : re) (s : bytes) : option bytes :=
  match rmatch r s Some with
  | Some rest => Some (firstn (length s - length rest) s)
  | None => None
  end.

Declare Scope re_scope.
Delimit Scope re_scope with re.
Infix ";;" := Seq (at level 61, right associativity) : re_scope.

Definition d : re := Cls is_digit.

(** [^(\d{4}/\d\d/\d\d )?(\d\d:\d\d:\d\d(\.\d{0,6})? )?] *)
Definition headerRE : re :=
  (Opt (Rep is_digit 4 4 ;; Chr "/" ;; d ;; d ;; Chr "/" ;; d ;; d ;;
        Chr " ") ;;
   Opt (d ;; d ;; Chr ":" ;; d ;; d ;; Chr ":" ;; d ;; d ;;
        Opt (Chr "." ;; Rep is_digit 0 6) ;; Chr " "))%re.

(** [^\s+] *)
Definition whiteSpaceRE : re := Plus is_space.

(** [^[^\s,]+] *)
Definition blackSpaceRE : re := Plus is_black.

Definition newline : bytes := [x0a].

Definition verbosePrefixes : list bytes := [lit "debug:"; lit "trace:"].

Definition errorPrefixes : list bytes := [lit "error:"].

(** ** The header block of [Write] (lines 131-138)

    Returns the prefix and the message text that is left. *)
Definition extractHeader (text : bytes) : bytes * bytes :=
  match FindStringSubmatch headerRE text with
  | Some prefix => (prefix, skipn (length prefix) text)
  | None => ([], text)
  end.

(** ** Runes: [unicode/utf8] and [unicode.IsSpace] *)

Definition rune := Z.

Definition RuneError : rune := 65533.

(** Is [b] a continuation byte, [0x80..0xBF]? *)
Definition is_cont (b : byte) : bool := (128 <=? bv b) && (bv b <=? 191).

(** The entry of utf8's [first] table for a leading byte: [None] for ASCII
    and invalid bytes (size 1), otherwise the size of the sequence and the
    range accepted for its second byte. *)
Definition first (b : byte) : option (nat * (Z * Z)) :=
  let c := bv b in
  if c <? 194 then None
  else if c <=? 223 then Some (2%nat, (128, 191))
  else if c =? 224 then Some (3%nat, (160, 191))
  else if c <=? 236 then Some (3%nat, (128, 191))
  else if c =? 237 then Some (3%nat, (128, 159))
  else if c <=? 239 then Some (3%nat, (128, 191))
  else if c =? 240 then Some (4%nat, (144, 191))
  else if c <=? 243 then Some (4%nat, (128, 191))
  else if c =? 244 then Some (4%nat, (128, 143))
  else None.

(** [utf8.DecodeRune]: the first rune of [p] and its width in bytes;
    [(RuneError, 0)] on empty input, [(RuneError, 1)] on a bad encoding. *)
Definition DecodeRune (p : bytes) : rune * nat :=
  match p with
  | [] => (RuneError, 0%nat)
  | p0 :: rest =>
      match first p0 with
      | None => (if bv p0 <? 128 then bv p0 else RuneError, 1%nat)
      | Some (sz, (lo, hi)) =>
          if (length p <? sz)%nat then (RuneError, 1%nat) else
          match rest with
          | [] => (RuneError, 1%nat)
          | b1 :: rest1 =>
              if (bv b1 <? lo) || (hi <? bv b1) then (RuneError, 1%nat)
              else if (sz <=? 2)%nat then
                (Z.lor (Z.shiftl (Z.land (bv p0) 31) 6) (Z.land (bv b1) 63),
                 2%nat)
              else
              match rest1 with
              | [] => (RuneError, 1%nat)
              | b2 :: rest2 =>
                  if negb (is_cont b2) then (RuneError, 1%nat)
                  else if (sz <=? 3)%nat then
                    (Z.lor (Z.shiftl (Z.land (bv p0) 15) 12)
                       (Z.lor (Z.shiftl (Z.land (bv b1) 63) 6)
                          (Z.land (bv b2) 63)),
                     3%nat)
                  else
                  match rest2 with
                  | [] => (RuneError, 1%nat)
                  | b3 :: _ =>
                      if negb (is_cont b3) then (RuneError, 1%nat)
                      else
                        (Z.lor (Z.shiftl (Z.land (bv p0) 7) 18)
                           (Z.lor (Z.shiftl (Z.land (bv b1) 63) 12)
                              (Z.lor (Z.shiftl (Z.land (bv b2) 63) 6)
                                 (Z.land (bv b3) 63))),
                         4%nat)
                  end
              end
          end
      end
  end.

(** [utf8.RuneCount] and [utf8.RuneCountInString]: runes are decoded one
    after the other, a bad byte counting as one rune of width 1.  [skip] is
    the number of bytes still belonging to the rune counted last. *)
Fixpoint rune_count_from (skip : nat) (s : bytes) : nat :=
  match s with
  | [] => 0%nat
  | _ :: s' =>
      match skip with
      | S k => rune_count_from k s'
      | O => S (rune_count_from (Nat.pred (snd (DecodeRune s))) s')
      end
  end.

Definition RuneCount (s : bytes) : Z := Z.of_nat (rune_count_from 0 s).

Definition byte_of_Z (z : Z) : byte :=
  match Byte.of_N (Z.to_N (z mod 256)) with
  | Some b => b
  | None => x00
  end.

(** [utf8.AppendRune]: the UTF-8 encoding of [r], that of U+FFFD when [r] is
    a surrogate or out of range.  [bytes.Buffer.WriteRune] appends it. *)
Definition EncodeRune (r : rune) : bytes :=
  if (0 <=? r) && (r <=? 127) then [byte_of_Z r]
  else if (0 <=? r) && (r <=? 2047) then
    [byte_of_Z (Z.lor 192 (Z.shiftr r 6));
     byte_of_Z (Z.lor 128 (Z.land r 63))]
  else if (r <? 0) || (1114111 <? r) || ((55296 <=? r) && (r <=? 57343)) then
    [xef; xbf; xbd]
  else if r <=? 65535 then
    [byte_of_Z (Z.lor 224 (Z.shiftr r 12));
     byte_of_Z (Z.lor 128 (Z.land (Z.shiftr r 6) 63));
     byte_of_Z (Z.lor 128 (Z.land r 63))]
  else
    [byte_of_Z (Z.lor 240 (Z.shiftr r 18));
     byte_of_Z (Z.lor 128 (Z.land (Z.shiftr r 12) 63));
     byte_of_Z (Z.lor 128 (Z.land (Z.shiftr r 6) 63));
     byte_of_Z (Z.lor 128 (Z.land r 63))].

(** [unicode.IsSpace]: the White_Space property. *)
Definition IsSpace (r : rune) : bool :=
  ((9 <=? r) && (r <=? 13)) || (r =? 32) || (r =? 133) || (r =? 160)
  || (r =? 5760) || ((8192 <=? r) && (r <=? 8202))
  || (r =? 8232) || (r =? 8233) || (r =? 8239) || (r =? 8287) || (r =? 12288).

(** ASCII lower case of a byte, and [bytes.EqualFold] against a pattern made
    of ASCII characters other than [k], [s] and their capitals (the letters
    of ["error:"] have no case-fold partner outside ASCII, so Unicode simple
    folding and ASCII folding agree on it). *)
Definition lower (b : byte) : Z :=
  if (65 <=? bv b) && (bv b <=? 90) then bv b + 32 else bv b.

Fixpoint EqualFold (s t : bytes) : bool :=
  match s, t with
  | [], [] => true
  | x :: s', y :: t' => (lower x =? lower y) && EqualFold s' t'
  | _, _ => false
  end.

(** ** The buffer [sb]

    One [piece] per write made to [sb]; [sb.Bytes()] is their concatenation. *)

Inductive piece : Type :=
| PPrefix (b : bytes)   (* sb.WriteString(prefix), line 176 *)
| PNewline              (* sb.WriteString(newline) *)
| PIndent (b : bytes)   (* sb.WriteString(indent) *)
| PSpace                (* sb.WriteRune(' ') *)
| PWord (b : bytes)     (* sb.Write(bs) *)
| PEsc (b : bytes)      (* sb.WriteString of a colour escape sequence *)
| PPunct (r : rune)     (* sb.WriteRune(punct) *)
| PText (b : bytes)     (* sb.WriteString(msgText.text), line 262 *)
| PKeyval (b : bytes).  (* sb.WriteString(keyvalText.text), line 279 *)

Definition piece_bytes (p : piece) : bytes :=
  match p with
  | PPrefix b | PIndent b | PWord b | PEsc b | PText b | PKeyval b => b
  | PNewline => newline
  | PSpace => [x20]
  | PPunct r => EncodeRune r
  end.

Definition Bytes (sb : list piece) : bytes := concat (map piece_bytes sb).

(** ["\x1b[0;31m"] and ["\x1b[0m"] *)
Definition escRed : bytes := x1b :: lit "[0;31m".
Definition escReset : bytes := x1b :: lit "[0m".

(** ** The data of [Write] *)

(** A value of type [interface{}] in [msg.List]: a string or something
    else. *)
Inductive iface : Type :=
| IString (s : bytes)
| IOther (tag : nat).

(** The result of [kv.Parse]. *)
Record Message : Type := { Text : bytes; List : list iface }.

Record keyvalText : Type := { ktext : bytes; ktextRuneCount : Z }.

(** The local variables [ws], [bs], [punct] and [punctLen] of one turn of
    the wrapping loop. *)
Record token : Type := { ws : bytes; bs : bytes; punct : rune; punctLen : Z }.

Record messageText : Type := {
  text : bytes;
  textRuneCount : Z;
  totalRuneCount : Z;
  keyvals : list keyvalText
}.

Section Kvlog.

(** Go's [error] values. *)
Variable error : Type.

(** [kv.P(key, value).String()], the rendering of one pair by the kv
    package. *)
Variable pairString : bytes -> iface -> bytes.

(** An [io.Writer]: what [Write(p)] returns. *)
Definition ioWriter : Type := bytes -> Z * option error.

(** A [Writer] that is set up: its [Out], [Width] and [origOut] are there,
    as [NewWriter] leaves them.  The struct as Go has it, whose fields of
    interface and function type may be nil, is [Nilable.Writer] below. *)
Record Writer : Type := {
  Out : ioWriter;
  Width : unit -> Z;
  Verbose : bool;
  colorOutput : bool;
  origOut : ioWriter
}.

(** What [NewWriter] finds out about the [io.Writer] it is given: its
    [Write]; whether it has an [Fd] method, and then whether
    [terminal.IsTerminal] holds of the descriptor, what [terminal.GetSize]
    reports as the width ([None] for an error), and, when the writer is an
    [*os.File], the writer that [colorable.NewColorable] makes of it. *)
Record fdInfo : Type := {
  isTerminal : bool;
  getSize : unit -> option Z;
  asFile : option ioWriter
}.

Record destination : Type := { write : ioWriter; fd : option fdInfo }.

Definition defaultWidth : Z := 170.

(** Lines 71-103. *)
Definition NewWriter (writer : destination) : Writer :=
  let w := {| Out := write writer; Width := fun _ => defaultWidth;
              Verbose := false; colorOutput := false;
              origOut := write writer |} in
  match fd writer with
  | Some f =>
      if isTerminal f then
        let width := fun _ : unit =>
          match getSize f tt with
          | None => defaultWidth
          | Some width => width - 1
          end in
        match asFile f with
        | Some colorable =>
            {| Out := colorable; Width := width; Verbose := false;
               colorOutput := true; origOut := write writer |}
        | None =>
            {| Out := write writer; Width := width; Verbose := false;
               colorOutput := false; origOut := write writer |}
        end
      else w
  | None => w
  end.

(** Lines 106-110. *)
Definition NoColor (w : Writer) : Writer :=
  {| Out := origOut w; Width := Width w; Verbose := Verbose w;
     colorOutput := false; origOut := origOut w |}.

(** How a call of [Write] ends: with a run-time panic, or by returning
    [(n, err)] after the writes [written] to [w.Out]. *)
Inductive outcome : Type :=
| Panic
| Return (written : list bytes) (n : Z) (err : option error).

(** Lines 139-146: is the message held back? *)
Definition suppressed (verbose : bool) (t : bytes) : bool :=
  negb verbose && existsb (fun vp => HasPrefix t vp) verbosePrefixes.

(** Lines 162-173: the loop over [msg.List].  [None] is a panic: of the type
    assertion [msg.List[i].(string)] or of the index [msg.List[i+1]]. *)
Fixpoint keyvalLoop (l : list iface) (m : messageText) : option messageText :=
  match l with
  | [] => Some m
  | IOther _ :: _ => None
  | IString _ :: [] => None
  | IString key :: value :: l' =>
      let keyval := pairString key value in
      let runeCount := RuneCount keyval in
      keyvalLoop l'
        {| text := text m;
           textRuneCount := textRuneCount m;
           totalRuneCount := totalRuneCount m + (runeCount + 1);
           keyvals := keyvals m ++
                        [{| ktext := keyval; ktextRuneCount := runeCount |}] |}
  end.

(** Lines 228-236. *)
Definition isError (b : bytes) : bool :=
  existsb (fun p => (len p <=? len b) && EqualFold (firstn (length p) b) p)
          errorPrefixes.

(** Lines 187-215: the next token of [in], that is the white space before
    it, the word, and the punctuation rune attached to it ([punctLen] is 0
    when there is none), and what is left of [in]. *)
Definition scanToken (in0 : bytes) : token * bytes :=
  let ws := Find whiteSpaceRE in0 in
  let in1 := if 0 <? len ws then skipn (length ws) in0 else in0 in
  let bs := Find blackSpaceRE in1 in
  let in2 := if 0 <? len bs then skipn (length bs) in1 else in1 in
  if 0 <? len in2 then
    let '(r, size) := DecodeRune in2 in
    if negb (IsSpace r)
    then ({| ws := ws; bs := bs; punct := r; punctLen := Z.of_nat size |},
          skipn size in2)
    else ({| ws := ws; bs := bs; punct := r; punctLen := 0 |}, in2)
  else ({| ws := ws; bs := bs; punct := 0; punctLen := 0 |}, in2).

(** Lines 217-253: the writes for one token and the new [col]. *)
Definition emitToken (color : bool) (width : Z) (indent : bytes)
    (col : Z) (t : token) : list piece * Z :=
  let wsLen := if 0 <? len (ws t) then 1 else 0 in
  let bsLen := RuneCount (bs t) in
  let '(out, col1) :=
    if bsLen + wsLen + punctLen t + col >? width then
      ([PNewline; PIndent indent; PWord (bs t)], len indent + bsLen)
    else
      let '(sp, col') :=
        if 0 <? len (ws t) then ([PSpace], col + 1) else ([], col) in
      let word :=
        if color then
          if isError (bs t) then [PEsc escRed; PWord (bs t); PEsc escReset]
          else [PWord (bs t)]
        else [PWord (bs t)] in
      (sp ++ word, col' + bsLen) in
  let '(out', col2) :=
    if 0 <? punctLen t then ([PPunct (punct t)], col1 + punctLen t)
    else ([], col1) in
  (out ++ out', col2).

(** Lines 187-253: one turn of the wrapping loop.  Returns the writes made,
    the new [col] and the new [in]. *)
Definition wrapStep (color : bool) (width : Z) (indent : bytes)
    (col : Z) (in0 : bytes) : list piece * Z * bytes :=
  let '(t, in3) := scanToken in0 in
  let '(out, col') := emitToken color width indent col t in
  (out, col', in3).

(** Lines 186-254: [for len(in) > 0 { ... }]. *)
Fixpoint wrapLoop (fuel : nat) (color : bool) (width : Z) (indent : bytes)
    (col : Z) (inp : bytes) : option (list piece * Z) :=
  match inp with
  | [] => Some ([], col)
  | _ :: _ =>
      match fuel with
      | O => None
      | S fuel' =>
          let '(out, col', inp') := wrapStep color width indent col inp in
          match wrapLoop fuel' color width indent col' inp' with
          | Some (outs, colf) => Some (out ++ outs, colf)
          | None => None
          end
      end
  end.

(** Lines 182-265: the message text.  Returns the writes, [col] and
    [needSpace]. *)
Definition placeText (color : bool) (width : Z) (indent : bytes)
    (m : messageText) (col : Z) : option (list piece * Z * Z) :=
  let needSpace := 0 in
  if (col + textRuneCount m >? width) || color then
    match wrapLoop (length (text m)) color width indent col (text m) with
    | Some (out, col') => Some (out, col', 1)
    | None => None
    end
  else if textRuneCount m >? 0 then
    let '(sp, col') :=
      if needSpace >? 0 then ([PSpace], col + 1) else ([], col) in
    Some (sp ++ [PText (text m)], col' + textRuneCount m, 1)
  else Some ([], col, needSpace).

(** Lines 267-282: the loop over the rendered pairs. *)
Fixpoint placeKeyvals (width : Z) (indent : bytes) (kvs : list keyvalText)
    (col needSpace : Z) : list piece :=
  match kvs with
  | [] => []
  | kvt :: kvs' =>
      let '(out1, col1, needSpace1) :=
        if ktextRuneCount kvt + needSpace + col >? width
        then ([PNewline; PIndent indent], len indent, 0)
        else ([], col, needSpace) in
      let '(out2, col2) :=
        if needSpace1 >? 0 then ([PSpace], col1 + 1) else ([], col1) in
      out1 ++ out2 ++ PKeyval (ktext kvt)
        :: placeKeyvals width indent kvs' (col2 + ktextRuneCount kvt) 1
  end.

(** Lines 147-153: the continuation indent. *)
Definition indentOf (prefix : bytes) : bytes :=
  if 0 <? len prefix then spaces (length prefix) else lit "    ".

(** Lines 175-284: everything written to [sb]. *)
Definition render (color : bool) (width : Z) (prefix : bytes)
    (m : messageText) : option (list piece) :=
  let indent := indentOf prefix in
  let col := len prefix in
  match placeText color width indent m col with
  | Some (out, col', needSpace) =>
      Some (PPrefix prefix :: out
              ++ placeKeyvals width indent (keyvals m) col' needSpace
              ++ [PNewline])
  | None => None
  end.

(** [Writer.Write], from the parsed message on.  [None] stands for a
    wrapping loop that has not finished within its fuel, which
    [Write_finishes] rules out.  The mutex around the final write has no
    counterpart in this sequential model. *)
Definition Write (w : Writer) (msg : Message) : option outcome :=
  let '(prefix, t) := extractHeader (Text msg) in
  if suppressed (Verbose w) t then Some (Return [] 0 None) else
  let width := Width w tt in
  let msgText :=
    {| text := t; textRuneCount := RuneCount t;
       totalRuneCount := RuneCount t; keyvals := [] |} in
  match keyvalLoop (List msg) msgText with
  | None => Some Panic
  | Some msgText =>
      match render (colorOutput w) width prefix msgText with
      | None => None
      | Some sb =>
          let '(n, err) := Out w (Bytes sb) in
          Some (Return [Bytes sb] n err)
      end
  end.

End Kvlog.

Arguments Panic {error}.
Arguments Return {error} written n err.
Arguments Out {error} w.
Arguments Width {error} w.
Arguments Verbose {error} w.
Arguments colorOutput {error} w.
Arguments origOut {error} w.
Arguments NoColor {error} w.
Arguments NewWriter {error} writer.
Arguments isTerminal {error} f.
Arguments getSize {error} f.
Arguments asFile {error} f.
Arguments write {error} d.
Arguments fd {error} d.
Arguments Write {error} pairString w msg.

(** ** The struct with its nil fields

    The fields [Out], [Width] and [origOut] of the Go struct are of
    interface and function type, and they are exported: each may be nil
    ([None]).  [Nilable.Write] is [Writer.Write] on such a struct: calling
    the nil function [w.Width] at line 147 and calling [Write] on the nil
    interface [w.Out] at line 287 are run-time panics. *)
Module Nilable.

Record Writer (error : Type) : Type := {
  Out : option (ioWriter error);
  Width : option (unit -> Z);
  Verbose : bool;
  colorOutput : bool;
  origOut : option (ioWriter error)
}.

Arguments Out {error} w.
Arguments Width {error} w.
Arguments Verbose {error} w.
Arguments colorOutput {error} w.
Arguments origOut {error} w.

(** Lines 106-110. *)
Definition NoColor {error : Type} (w : Writer error) : Writer error :=
  {| Out := origOut w; Width := Width w; Verbose := Verbose w;
     colorOutput := false; origOut := origOut w |}.

(** Lines 128-290. *)
Definition Write {error : Type} (pairString : bytes -> iface -> bytes)
    (w : Writer error) (msg : Message) : option (outcome error) :=
  let '(prefix, t) := extractHeader (Text msg) in
  if suppressed (Verbose w) t then Some (Return [] 0 None) else
  match Width w with
  | None => Some Panic
  | Some widthFunc =>
      let width := widthFunc tt in
      let msgText :=
        {| text := t; textRuneCount := RuneCount t;
           totalRuneCount := RuneCount t; keyvals := [] |} in
      match keyvalLoop pairString (List msg) msgText with
      | None => Some Panic
      | Some msgText =>
          match render (colorOutput w) width prefix msgText with
          | None => None
          | Some sb =>
              match Out w with
              | None => Some Panic
              | Some out =>
                  let '(n, err) := out (Bytes sb) in
                  Some (Return [Bytes sb] n err)
              end
          end
      end
  end.

End Nilable.

(** A writer that is set up, as a struct. *)
Definition nilable {error : Type} (w : Writer error) : Nilable.Writer error :=
  {| Nilable.Out := Some (Out w); Nilable.Width := Some (Width w);
     Nilable.Verbose := Verbose w; Nilable.colorOutput := colorOutput w;
     Nilable.origOut := Some (origOut w) |}.

(** ** Records

    A log record as the specification has it: a text and an ordered list of
    key/value pairs.  [parsed] is the message [kv.Parse] hands to [Write]
    for it. *)
Record LogRecord : Type := { rtext : bytes; rpairs : list (bytes * iface) }.

Definition flattenPairs (ps : list (bytes * iface)) : list iface :=
  flat_map (fun kv => [IString (fst kv); snd kv]) ps.

Definition parsed (r : LogRecord) : Message :=
  {| Text := rtext r; List := flattenPairs (rpairs r) |}.

(** A pair renderer to run examples with: [key=value] for a string value. *)
Definition exampleString (key : bytes) (value : iface) : bytes :=
  match value with
  | IString v => key ++ lit "=" ++ v
  | IOther _ => key ++ lit "=?"
  end.

(** An [io.Writer] that accepts everything, and one that fails. *)
Definition okWriter : ioWriter bytes := fun p => (len p, None).
Definition failWriter : ioWriter bytes :=
  fun p => (3, Some (lit "short write")).

Definition exampleWriter (width : Z) (verbose color : bool) : Writer bytes :=
  {| Out := okWriter; Width := fun _ => width; Verbose := verbose;
     colorOutput := color; origOut := okWriter |}.

(** ** Auxiliary notions used to state the properties *)

(** The longest prefix of [s] made of bytes of class [p], and the rest. *)
Fixpoint takeWhile (p : byte -> bool) (s : bytes) : bytes :=
  match s with
  | c :: s' => if p c then c :: takeWhile p s' else []
  | [] => []
  end.

Fixpoint dropWhile (p : byte -> bool) (s : bytes) : bytes :=
  match s with
  | c :: s' => if p c then dropWhile p s' else s
  | [] => []
  end.

(** The shape of a token: the white space is a maximal run of [\s], the word
    a maximal run of [[^\s,]], and the only punctuation rune that is ever
    attached is a comma, one byte wide. *)
Inductive scanned (in0 : bytes) : token -> bytes -> Prop :=
| scanned_comma in3 :
    dropWhile is_black (dropWhile is_space in0) = x2c :: in3 ->
    scanned in0
      {| ws := takeWhile is_space in0;
         bs := takeWhile is_black (dropWhile is_space in0);
         punct := 44; punctLen := 1 |} in3
| scanned_plain r :
    let in2 := dropWhile is_black (dropWhile is_space in0) in
    (in2 = [] \/ exists c s, in2 = c :: s /\ is_space c = true) ->
    scanned in0
      {| ws := takeWhile is_space in0;
         bs := takeWhile is_black (dropWhile is_space in0);
         punct := r; punctLen := 0 |} in2.

(** A continuation of the matcher that returns a suffix of its input. *)
Definition suffix_k (k : bytes -> option bytes) : Prop :=
  forall s r, k s = Some r -> exists p, s = p ++ r.

(** Does [s] start with a decimal digit? *)
Definition startsWithDigit (s : bytes) : bool :=
  match s with
  | c :: _ => is_digit c
  | [] => false
  end.

(** The rendered pair of a record, and the [messageText] that [Write] builds
    for a record whose text, once the header is off, is [t]. *)
Definition pairText (pairString : bytes -> iface -> bytes)
    (kv : bytes * iface) : keyvalText :=
  {| ktext := pairString (fst kv) (snd kv);
     ktextRuneCount := RuneCount (pairString (fst kv) (snd kv)) |}.

Definition recordText (pairString : bytes -> iface -> bytes)
    (t : bytes) (ps : list (bytes * iface)) : messageText :=
  {| text := t;
     textRuneCount := RuneCount t;
     totalRuneCount :=
       fold_left (fun n kv => n + (ktextRuneCount (pairText pairString kv) + 1))
                 ps (RuneCount t);
     keyvals := map (pairText pairString) ps |}.

(** A key/value list of even length whose elements at even indices are
    strings. *)
Definition evenStrings (l : list iface) : Prop :=
  Nat.Even (length l) /\
  forall i x, Nat.Even i -> nth_error l i = Some x -> exists s, x = IString s.

(** The wrapping loop as a relation: [wrapped color width indent col inp out
    col'] when the loop, entered with [col] and [in = inp], makes the writes
    [out] and leaves [col']. *)
Inductive wrapped (color : bool) (width : Z) (indent : bytes)
    : Z -> bytes -> list piece -> Z -> Prop :=
| wrapped_done col : wrapped color width indent col [] [] col
| wrapped_turn col in0 t in3 out col1 outs colf :
    in0 <> [] ->
    scanned in0 t in3 ->
    emitToken color width indent col t = (out, col1) ->
    wrapped color width indent col1 in3 outs colf ->
    wrapped color width indent col in0 (out ++ outs) colf.

(** The bytes written for the punctuation of a token. *)
Definition punctBytes (t : token) : bytes :=
  if 0 <? punctLen t then EncodeRune (punct t) else [].

(** The texts of the key/value writes of a buffer, in the order written. *)
Fixpoint keyvalsOf (sb : list piece) : list bytes :=
  match sb with
  | [] => []
  | PKeyval b :: sb' => b :: keyvalsOf sb'
  | _ :: sb' => keyvalsOf sb'
  end.

(** [InOrder xs s]: the strings [xs] occur in [s] one after the other, in
    this order and without overlap. *)
Inductive InOrder : list bytes -> bytes -> Prop :=
| InOrder_nil s : InOrder [] s
| InOrder_cons x xs a s : InOrder xs s -> InOrder (x :: xs) (a ++ x ++ s).

(** The number of escape bytes [\x1b] in a string. *)
Definition escCount (s : bytes) : nat := count_occ Byte.byte_eq_dec s x1b.

(** The rendered texts of the pairs of a record, in the order supplied. *)
Definition pairStrings (pairString : bytes -> iface -> bytes)
    (ps : list (bytes * iface)) : list bytes :=
  map (fun kv => pairString (fst kv) (snd kv)) ps.

(** The writes of a buffer other than the line breaks and indents that the
    wrapper puts in. *)
Definition notBreak (p : piece) : bool :=
  match p with
  | PNewline | PIndent _ => false
  | _ => true
  end.

(** No two white-space characters in a row. *)
Fixpoint noWsRun (s : bytes) : bool :=
  match s with
  | a :: (b :: _) as s' => negb (is_space a && is_space b) && noWsRun s'
  | _ => true
  end.

(** The writes of a buffer other than the colour escape sequences. *)
Definition notEsc (p : piece) : bool :=
  match p with
  | PEsc _ => false
  | _ => true
  end.




(** The width in bytes of the first rune of a non-empty string. *)
Definition runeSize (s : bytes) : nat := snd (DecodeRune s).


(** Bytes none of which is white space. *)
Definition blackBytes (s : bytes) : Prop :=
  Forall (fun c => is_space c = false) s.

(** The result of a turn or of the loop, less the escape sequences. *)
Definition dropEsc (r : list piece * Z) : list piece * Z :=
  (filter notEsc (fst r), snd r).


(** ** Lines and their width *)

(** The visible bytes of a write: a colour escape sequence shows nothing. *)
Definition visible (p : piece) : bytes :=
  match p with
  | PEsc _ | PNewline => []
  | _ => piece_bytes p
  end.

Definition lineBytes (line : list piece) : bytes := concat (map visible line).

(** The width of a line in display columns: one per rune of its visible
    bytes. *)
Definition lineWidth (line : list piece) : Z := RuneCount (lineBytes line).









Definition noNewline (p : piece) : bool :=
  match p with
  | PNewline => false
  | _ => true
  end.

(** The rune count kept with a rendered pair is that of its text. *)
Definition countedPair (k : keyvalText) : Prop :=
  ktextRuneCount k = RuneCount (ktext k).

(** ** Example records and writers *)

Definition helloRecord : LogRecord :=
  {| rtext := lit "hello world";
     rpairs := [(lit "user", IString (lit "ann")); (lit "n", IOther 7)] |}.

Definition debugRecord : LogRecord :=
  {| rtext := lit "2024/01/02 15:04:05 debug: detail"; rpairs := [] |}.

Definition failingSink : Writer bytes :=
  {| Out := failWriter; Width := fun _ => 80; Verbose := false;
     colorOutput := false; origOut := failWriter |}.

Definition errorRecord : LogRecord :=
  {| rtext := lit "error: disk full";
     rpairs := [(lit "dev", IString (lit "sda"))] |}.




(** ** Further notions: what an expression matches, ink, escape pairs *)

(** [matches r p]: the string [p] is matched by the expression [r]. *)
Inductive matches : re -> bytes -> Prop :=
| matches_cls p c : p c = true -> matches (Cls p) [c]
| matches_chr c : matches (Chr c) [c]
| matches_seq r1 r2 p1 p2 :
    matches r1 p1 -> matches r2 p2 -> matches (Seq r1 r2) (p1 ++ p2)
| matches_opt_none r : matches (Opt r) []
| matches_opt_some r p : matches r p -> matches (Opt r) p
| matches_rep p lo hi s :
    Forall (fun c => p c = true) s ->
    (lo <= length s <= hi)%nat -> matches (Rep p lo hi) s
| matches_plus p s :
    s <> [] -> Forall (fun c => p c = true) s -> matches (Plus p) s.

(** The longest string an expression without [+] can match. *)
Fixpoint maxLen (r : re) : nat :=
  match r with
  | Cls _ | Chr _ => 1
  | Seq r1 r2 => maxLen r1 + maxLen r2
  | Opt r1 => maxLen r1
  | Rep _ _ hi => hi
  | Plus _ => 0
  end.

Fixpoint plusFree (r : re) : bool :=
  match r with
  | Cls _ | Chr _ | Rep _ _ _ => true
  | Seq r1 r2 => plusFree r1 && plusFree r2
  | Opt r1 => plusFree r1
  | Plus _ => false
  end.

(** Every character an expression can match satisfies [P]. *)
Fixpoint charsIn (P : byte -> Prop) (r : re) : Prop :=
  match r with
  | Cls p | Rep p _ _ | Plus p => forall c, p c = true -> P c
  | Chr c => P c
  | Seq r1 r2 => charsIn P r1 /\ charsIn P r2
  | Opt r1 => charsIn P r1
  end.

(** The expression ends with the literal character [c]. *)
Fixpoint endsWith (c : byte) (r : re) : bool :=
  match r with
  | Chr c' => byte_eqb c' c
  | Seq _ r2 => endsWith c r2
  | _ => false
  end.

(** The characters of a header: digits, [/], [:], [.] and the space. *)
Definition headerChar (c : byte) : Prop :=
  is_digit c = true \/ c = x2f \/ c = x3a \/ c = x2e \/ c = x20.

(** The bytes of [s] that are not white space. *)
Definition ink (s : bytes) : bytes := filter (fun c => negb (is_space c)) s.

(** The escape sequences of a buffer come in pairs, red and reset, around a
    word that starts with an error prefix. *)
Inductive escPaired : list piece -> Prop :=
| escPaired_nil : escPaired []
| escPaired_red b sb :
    isError b = true -> escPaired sb ->
    escPaired (PEsc escRed :: PWord b :: PEsc escReset :: sb)
| escPaired_other p sb :
    notEsc p = true -> escPaired sb -> escPaired (p :: sb).

(** Every line break but the last write of the buffer is followed by the
    indent. *)
Fixpoint breaksIndented (indent : bytes) (sb : list piece) : Prop :=
  match sb with
  | [] => True
  | PNewline :: sb' =>
      (sb' = [] \/ exists rest, sb' = PIndent indent :: rest)
      /\ breaksIndented indent sb'
  | _ :: sb' => breaksIndented indent sb'
  end.

(** The writes of a record that fits on one line: the text, then each pair
    after a space. *)
Definition onOneLine (prefix t : bytes) (kvs : list keyvalText) : list piece :=
  PPrefix prefix :: PText t
    :: flat_map (fun k => [PSpace; PKeyval (ktext k)]) kvs ++ [PNewline].

(** Every key/value write of [sb] comes right after a space, the indent or
    the header; [prev] is the write before [sb]. *)
Fixpoint pairsSeparated (prev : piece) (sb : list piece) : Prop :=
  match sb with
  | [] => True
  | p :: sb' =>
      match p, prev with
      | PKeyval _, (PSpace | PIndent _ | PPrefix _) => True
      | PKeyval _, _ => False
      | _, _ => True
      end /\ pairsSeparated p sb'
  end.

(** The only white-space character in [s] is the space. *)
Definition plainSpaces (s : bytes) : Prop :=
  Forall (fun c => is_space c = true -> c = x20) s.

(** A struct made by hand, without [NewWriter]: [Width] was never set. *)
Definition noWidthWriter : Nilable.Writer bytes :=
  {| Nilable.Out := Some okWriter; Nilable.Width := None;
     Nilable.Verbose := false; Nilable.colorOutput := false;
     Nilable.origOut := Some okWriter |}.

(** A struct whose [Out] was set to nil. *)
Definition noOutWriter : Nilable.Writer bytes :=
  {| Nilable.Out := None; Nilable.Width := Some (fun _ => 80);
     Nilable.Verbose := false; Nilable.colorOutput := false;
     Nilable.origOut := None |}.

(** A string without a newline byte. *)
Definition noNl (s : bytes) : Prop := Forall (fun c => c <> x0a) s.

(** Every newline byte of [s] but a last one is followed by the bytes of the
    indent. *)
Definition nlIndented (indent s : bytes) : Prop :=
  forall a b, s = a ++ x0a :: b -> b = [] \/ exists b', b = indent ++ b'.

(** A write that is the line break, or whose bytes hold no newline. *)
Definition cleanPiece (p : piece) : Prop :=
  match p with
  | PNewline => True
  | _ => noNl (piece_bytes p)
  end.

(** * Properties *)

(** ** The matcher on [cls+] *)

Lemma take_drop_while p s : takeWhile p s ++ dropWhile p s = s.
Proof.
  induction s as [|c s IH]; simpl; [reflexivity|].
  destruct (p c); simpl; [now rewrite IH | reflexivity].
Qed.

Lemma skipn_takeWhile p s : skipn (length (takeWhile p s)) s = dropWhile p s.
Proof.
  induction s as [|c s IH]; simpl; [reflexivity|].
  destruct (p c); simpl; [exact IH | reflexivity].
Qed.

Lemma firstn_app_exact {A} (a b : list A) :
  firstn (length (a ++ b) - length b) (a ++ b) = a.
Proof.
  rewrite length_app.
  replace (length a + length b - length b)%nat with (length a + 0)%nat by lia.
  rewrite firstn_app_2. simpl. apply app_nil_r.
Qed.

Lemma star_match_Some p s : star_match p s Some = Some (dropWhile p s).
Proof.
  induction s as [|c s IH]; simpl; [reflexivity|].
  destruct (p c); [now rewrite IH | reflexivity].
Qed.

Lemma Find_Plus p s : Find (Plus p) s = takeWhile p s.
Proof.
  unfold Find. destruct s as [|c s]; simpl; [reflexivity|].
  destruct (p c) eqn:E; [|reflexivity].
  rewrite star_match_Some.
  pose proof (firstn_app_exact (c :: takeWhile p s) (dropWhile p s)) as H.
  simpl app in H. rewrite take_drop_while in H. exact H.
Qed.

Lemma dropWhile_head p s c s' : dropWhile p s = c :: s' -> p c = false.
Proof.
  induction s as [|x s IH]; simpl; [discriminate|].
  destruct (p x) eqn:E; [exact IH|].
  intros H; injection H as -> _; exact E.
Qed.

Lemma takeWhile_all p s : Forall (fun c => p c = true) (takeWhile p s).
Proof.
  induction s as [|c s IH]; simpl; [constructor|].
  destruct (p c) eqn:E; [constructor; assumption | constructor].
Qed.

Lemma dropWhile_length p s : (length (dropWhile p s) <= length s)%nat.
Proof.
  induction s as [|c s IH]; simpl; [lia|]. destruct (p c); simpl; lia.
Qed.

Lemma len_pos_iff {A} (l : list A) :
  (0 <? len l) = negb (match l with [] => true | _ => false end).
Proof. destruct l; unfold len; simpl; [reflexivity|]. apply Z.ltb_lt. lia. Qed.

(** What the two [Find]s of a turn of the loop leave in [in]. *)
Lemma consume_Plus p s :
  (if 0 <? len (Find (Plus p) s)
   then skipn (length (Find (Plus p) s)) s else s) = dropWhile p s.
Proof.
  rewrite Find_Plus. rewrite len_pos_iff.
  destruct (takeWhile p s) eqn:E.
  - destruct s as [|c s]; simpl in *; [reflexivity|].
    destruct (p c); [discriminate | reflexivity].
  - cbn [negb]. rewrite <- E. apply skipn_takeWhile.
Qed.

(** ** Bytes by value *)

Lemma bv_range b : 0 <= bv b < 256.
Proof.
  unfold bv. pose proof (Byte.to_N_bounded b) as H. lia.
Qed.

Lemma bv_inj a b : bv a = bv b -> a = b.
Proof.
  unfold bv; intros H.
  assert (E : Byte.to_N a = Byte.to_N b) by lia.
  pose proof (Byte.of_to_N a) as Ha. rewrite E, Byte.of_to_N in Ha.
  now injection Ha.
Qed.

Lemma not_black_not_space c :
  is_black c = false -> is_space c = false -> c = x2c.
Proof.
  unfold is_black. intros H1 H2. rewrite H2 in H1. simpl in H1.
  apply negb_false_iff in H1. apply Z.eqb_eq in H1.
  apply bv_inj. exact H1.
Qed.

Lemma is_space_IsSpace c : is_space c = true -> IsSpace (bv c) = true.
Proof.
  unfold is_space, IsSpace. intros H.
  repeat (apply orb_true_iff in H; destruct H as [H|H]);
    apply Z.eqb_eq in H; rewrite H; reflexivity.
Qed.

Lemma DecodeRune_ascii c s : bv c < 128 -> DecodeRune (c :: s) = (bv c, 1%nat).
Proof.
  intros H. unfold DecodeRune, first.
  assert (E : (bv c <? 194) = true) by (apply Z.ltb_lt; lia).
  rewrite E. assert (E' : (bv c <? 128) = true) by (apply Z.ltb_lt; lia).
  now rewrite E'.
Qed.

Lemma is_space_ascii c : is_space c = true -> bv c < 128.
Proof.
  unfold is_space. intros H.
  repeat (apply orb_true_iff in H; destruct H as [H|H]);
    apply Z.eqb_eq in H; lia.
Qed.

(** ** The tokens of the wrapping loop *)

Lemma scanToken_scanned in0 :
  scanned in0 (fst (scanToken in0)) (snd (scanToken in0)).
Proof.
  unfold scanToken, whiteSpaceRE, blackSpaceRE.
  rewrite consume_Plus. rewrite consume_Plus. rewrite !Find_Plus.
  destruct (dropWhile is_black (dropWhile is_space in0)) as [|c s] eqn:E.
  - cbn. pose proof (scanned_plain in0 0) as P. cbv zeta in P.
    rewrite E in P. apply P. now left.
  - rewrite len_pos_iff. cbn [negb].
    pose proof (dropWhile_head _ _ _ _ E) as Hb.
    destruct (is_space c) eqn:Hs.
    + rewrite (DecodeRune_ascii c s (is_space_ascii c Hs)).
      rewrite (is_space_IsSpace c Hs). cbn.
      pose proof (scanned_plain in0 (bv c)) as P. cbv zeta in P.
      rewrite E in P. apply P. right. now exists c, s.
    + pose proof (not_black_not_space c Hb Hs) as ->.
      cbn. apply scanned_comma. exact E.
Qed.

(** Every turn of the loop consumes at least one byte. *)
Lemma scanToken_progress in0 :
  in0 <> [] -> (length (snd (scanToken in0)) < length in0)%nat.
Proof.
  intros Hne. pose proof (scanToken_scanned in0) as H.
  destruct in0 as [|c s]; [congruence|].
  pose proof (dropWhile_length is_space s) as L1.
  pose proof (dropWhile_length is_black (dropWhile is_space s)) as L2.
  pose proof (dropWhile_length is_black s) as L3.
  inversion H as [in3 E Ht E3 | r in2 Hc Ht E3]; clear H.
  - simpl in E. destruct (is_space c).
    + rewrite E in L2. simpl in *. lia.
    + simpl in E. destruct (is_black c).
      * rewrite E in L3. simpl in *. lia.
      * injection E as _ <-. simpl. lia.
  - subst in2. clear E3 Ht. simpl in *.
    destruct (is_space c) eqn:Hs.
    + lia.
    + simpl in *. destruct (is_black c) eqn:Hb.
      * lia.
      * destruct Hc as [Hc | (c' & s' & Hc & Hs')]; [discriminate|].
        injection Hc as <- _. congruence.
Qed.

Lemma wrapStep_progress color width indent col in0 :
  in0 <> [] ->
  (length (snd (wrapStep color width indent col in0)) < length in0)%nat.
Proof.
  intros H. unfold wrapStep.
  pose proof (scanToken_progress in0 H) as P.
  destruct (scanToken in0) as [t in3].
  destruct (emitToken color width indent col t). exact P.
Qed.

(** The wrapping loop ends within as many turns as [in] has bytes. *)
Lemma wrapLoop_finishes color width indent :
  forall fuel col inp, (length inp <= fuel)%nat ->
  exists out col', wrapLoop fuel color width indent col inp = Some (out, col').
Proof.
  induction fuel as [|fuel IH]; intros col inp Hl.
  - destruct inp; [|simpl in Hl; lia]. simpl. eauto.
  - destruct inp as [|c s]; [simpl; eauto|].
    cbn [wrapLoop].
    pose proof (wrapStep_progress color width indent col (c :: s)) as P.
    destruct (wrapStep color width indent col (c :: s)) as [[out col'] inp'].
    cbn [snd] in P.
    destruct (IH col' inp') as (outs & colf & E).
    { assert (c :: s <> []) as Hne by discriminate. specialize (P Hne).
      simpl in P, Hl. lia. }
    rewrite E. eauto.
Qed.

(** ** The header expression *)

Lemma suffix_k_Some : suffix_k Some.
Proof. intros s r H. injection H as ->. now exists []. Qed.

Lemma rep_match_suffix p k :
  suffix_k k -> forall hi lo, suffix_k (fun s => rep_match p lo hi s k).
Proof.
  intros Hk. induction hi as [|hi IH]; intros lo s r H.
  - simpl in H. destruct (Nat.eqb lo 0); [|destruct s; discriminate].
    destruct s; now apply Hk.
  - simpl in H. destruct s as [|c s].
    + destruct (Nat.eqb lo 0); [now apply Hk | discriminate].
    + destruct (p c).
      * destruct (rep_match p (Nat.pred lo) hi s k) as [x|] eqn:E.
        -- injection H as ->. destruct (IH _ _ _ E) as [q ->].
           now exists (c :: q).
        -- destruct (Nat.eqb lo 0); [now apply Hk | discriminate].
      * destruct (Nat.eqb lo 0); [now apply Hk | discriminate].
Qed.

Lemma star_match_suffix p k :
  suffix_k k -> suffix_k (fun s => star_match p s k).
Proof.
  intros Hk s. induction s as [|c s IH]; intros r H; simpl in H.
  - now apply Hk.
  - destruct (p c); [|now apply Hk].
    destruct (star_match p s k) as [x|] eqn:E; [|now apply Hk].
    injection H as ->. destruct (IH _ eq_refl) as [q ->]. now exists (c :: q).
Qed.

Lemma rmatch_suffix r :
  forall k, suffix_k k -> suffix_k (fun s => rmatch r s k).
Proof.
  induction r as [p|c0|r1 IH1 r2 IH2|r1 IH1|p lo hi|p]; intros k Hk s res H;
    simpl in H.
  - destruct s as [|c s]; [discriminate|]. destruct (p c); [|discriminate].
    destruct (Hk _ _ H) as [q ->]. now exists (c :: q).
  - destruct s as [|c s]; [discriminate|].
    destruct (byte_eqb c c0); [|discriminate].
    destruct (Hk _ _ H) as [q ->]. now exists (c :: q).
  - apply (IH1 (fun s' => rmatch r2 s' k)); [|exact H].
    intros s' r' H'. now apply (IH2 k Hk).
  - destruct (rmatch r1 s k) as [x|] eqn:E; [|now apply Hk].
    injection H as ->. now apply (IH1 k Hk).
  - now apply (rep_match_suffix p k Hk hi lo).
  - destruct s as [|c s]; [discriminate|]. destruct (p c); [|discriminate].
    destruct (star_match_suffix p k Hk _ _ H) as [q ->]. now exists (c :: q).
Qed.

(** The header and the text that is left make up the message text. *)
Lemma extractHeader_split t :
  fst (extractHeader t) ++ snd (extractHeader t) = t.
Proof.
  unfold extractHeader, FindStringSubmatch.
  destruct (rmatch headerRE t Some) as [rest|] eqn:E; [|reflexivity].
  destruct (rmatch_suffix headerRE Some suffix_k_Some _ _ E) as [q ->].
  rewrite firstn_app_exact. cbn [fst snd].
  now rewrite skipn_app, skipn_all, Nat.sub_diag.
Qed.

(** A text that does not start with a digit has no header. *)
Lemma extractHeader_no_digit t :
  startsWithDigit t = false -> extractHeader t = ([], t).
Proof.
  intros H. unfold extractHeader, FindStringSubmatch.
  destruct t as [|c s]; [reflexivity|].
  change (is_digit c = false) in H.
  assert (E : rmatch headerRE (c :: s) Some = Some (c :: s)).
  { cbn -[is_digit]. rewrite H. reflexivity. }
  rewrite E. now rewrite Nat.sub_diag.
Qed.

(** ** The wrapping loop, turn by turn *)

Lemma wrapLoop_wrapped color width indent :
  forall fuel col inp out colf,
  wrapLoop fuel color width indent col inp = Some (out, colf) ->
  wrapped color width indent col inp out colf.
Proof.
  induction fuel as [|fuel IH]; intros col inp out colf H.
  - destruct inp; [|discriminate]. injection H as <- <-. constructor.
  - destruct inp as [|c s]; [injection H as <- <-; constructor|].
    cbn [wrapLoop] in H. unfold wrapStep in H.
    pose proof (scanToken_scanned (c :: s)) as Hs.
    destruct (scanToken (c :: s)) as [t in3]. cbn [fst snd] in Hs.
    destruct (emitToken color width indent col t) as [o col1] eqn:He.
    destruct (wrapLoop fuel color width indent col1 in3) as [[outs cf]|] eqn:E;
      [|discriminate].
    injection H as <- <-.
    eapply wrapped_turn; eauto. discriminate.
Qed.

(** A token and the rest of the input make up the input. *)
Lemma scanned_split in0 t in3 :
  scanned in0 t in3 -> in0 = ws t ++ bs t ++ punctBytes t ++ in3.
Proof.
  intros H. inversion H as [in3' E | r in2 Hc]; subst; cbn.
  - change (EncodeRune 44) with [x2c]. cbn. rewrite <- E.
    now rewrite !take_drop_while.
  - now rewrite !take_drop_while.
Qed.

(** The writes of one token: a line break, the indent and the word, or the
    pending space and the word, coloured or not; then the punctuation. *)
Lemma emitToken_cases color width indent col t out col1 :
  emitToken color width indent col t = (out, col1) ->
  let wsLen := if 0 <? len (ws t) then 1 else 0 in
  let pp := if 0 <? punctLen t then [PPunct (punct t)] else [] in
  let pl := if 0 <? punctLen t then punctLen t else 0 in
  (RuneCount (bs t) + wsLen + punctLen t + col > width /\
   out = [PNewline; PIndent indent; PWord (bs t)] ++ pp /\
   col1 = len indent + RuneCount (bs t) + pl)
  \/
  (RuneCount (bs t) + wsLen + punctLen t + col <= width /\
   exists sp word,
     out = sp ++ word ++ pp /\
     col1 = col + wsLen + RuneCount (bs t) + pl /\
     (sp = (if 0 <? len (ws t) then [PSpace] else [])) /\
     (word = [PWord (bs t)] \/
      color = true /\ isError (bs t) = true /\
      word = [PEsc escRed; PWord (bs t); PEsc escReset])).
Proof.
  unfold emitToken. intros H. cbv zeta.
  destruct (RuneCount (bs t) + (if 0 <? len (ws t) then 1 else 0)
            + punctLen t + col >? width) eqn:Ew.
  - left. apply Z.gtb_lt in Ew. split; [lia|].
    destruct (0 <? punctLen t); injection H as <- <-; split; auto; lia.
  - right. assert (Hle : RuneCount (bs t) + (if 0 <? len (ws t) then 1 else 0)
                         + punctLen t + col <= width).
    { destruct (Z.gtb_spec (RuneCount (bs t)
         + (if 0 <? len (ws t) then 1 else 0) + punctLen t + col) width);
        [discriminate | lia]. }
    split; [exact Hle|].
    exists (if 0 <? len (ws t) then [PSpace] else []).
    destruct (0 <? len (ws t)); destruct color;
      try destruct (isError (bs t)) eqn:Ei;
      destruct (0 <? punctLen t); injection H as <- <-;
      first
        [ exists [PWord (bs t)];
          (split; [reflexivity|]); (split; [lia|]); (split; [reflexivity|]);
          now left
        | exists [PEsc escRed; PWord (bs t); PEsc escReset];
          (split; [reflexivity|]); (split; [lia|]); (split; [reflexivity|]);
          right; auto ].
Qed.

(** The three ways the message text is placed: by the wrapping loop, in one
    write, or not at all when it is empty. *)
Lemma placeText_cases color width indent m col out col' ns :
  placeText color width indent m col = Some (out, col', ns) ->
  ((col + textRuneCount m > width \/ color = true) /\
   wrapped color width indent col (text m) out col' /\ ns = 1)
  \/
  (col + textRuneCount m <= width /\ color = false /\
   ((0 < textRuneCount m /\ out = [PText (text m)] /\
     col' = col + textRuneCount m /\ ns = 1)
    \/ (textRuneCount m <= 0 /\ out = [] /\ col' = col /\ ns = 0))).
Proof.
  unfold placeText. intros H.
  destruct (Z.gtb_spec (col + textRuneCount m) width) as [Hw|Hw];
    destruct color; cbn [orb] in H;
    try (destruct (wrapLoop _ _ _ _ _ _) as [[o c]|] eqn:E; [|discriminate];
         injection H as <- <- <-; left;
         split; [auto; lia|]; split; [|reflexivity];
         eapply wrapLoop_wrapped; eauto).
  right. split; [lia|]. split; [reflexivity|].
  destruct (Z.gtb_spec (textRuneCount m) 0) as [Hp|Hp]; cbn in H;
    injection H as <- <- <-; [left | right]; repeat split; auto; lia.
Qed.

(** ** Key/value writes *)

(** The loop over the rendered pairs, one turn unfolded. *)
Lemma placeKeyvals_cons width indent kvt kvs col ns :
  placeKeyvals width indent (kvt :: kvs) col ns =
  if ktextRuneCount kvt + ns + col >? width then
    PNewline :: PIndent indent :: PKeyval (ktext kvt)
      :: placeKeyvals width indent kvs (len indent + ktextRuneCount kvt) 1
  else if ns >? 0 then
    PSpace :: PKeyval (ktext kvt)
      :: placeKeyvals width indent kvs (col + 1 + ktextRuneCount kvt) 1
  else
    PKeyval (ktext kvt)
      :: placeKeyvals width indent kvs (col + ktextRuneCount kvt) 1.
Proof.
  cbn [placeKeyvals]. destruct (ktextRuneCount kvt + ns + col >? width);
    [reflexivity|]. destruct (ns >? 0); reflexivity.
Qed.

Lemma keyvalsOf_app a b : keyvalsOf (a ++ b) = keyvalsOf a ++ keyvalsOf b.
Proof.
  induction a as [|p a IH]; [reflexivity|].
  destruct p; cbn; now rewrite IH.
Qed.

Lemma keyvalsOf_emitToken color width indent col t out col1 :
  emitToken color width indent col t = (out, col1) -> keyvalsOf out = [].
Proof.
  intros H. apply emitToken_cases in H. cbv zeta in H.
  destruct H as [(_ & -> & _) | (_ & sp & word & -> & _ & -> & Hw)].
  - destruct (0 <? punctLen t); reflexivity.
  - destruct Hw as [-> | (_ & _ & ->)];
      destruct (0 <? len (ws t)); destruct (0 <? punctLen t); reflexivity.
Qed.

Lemma keyvalsOf_wrapped color width indent col inp out colf :
  wrapped color width indent col inp out colf -> keyvalsOf out = [].
Proof.
  induction 1 as [|col in0 t in3 out col1 outs colf _ _ He _ IH];
    [reflexivity|].
  rewrite keyvalsOf_app, IH, app_nil_r. eapply keyvalsOf_emitToken; eauto.
Qed.

Lemma keyvalsOf_placeText color width indent m col out col' ns :
  placeText color width indent m col = Some (out, col', ns) ->
  keyvalsOf out = [].
Proof.
  intros H. apply placeText_cases in H.
  destruct H as [(_ & H & _) | (_ & _ & [(_ & -> & _) | (_ & -> & _)])];
    try reflexivity.
  eapply keyvalsOf_wrapped; eauto.
Qed.

Lemma keyvalsOf_placeKeyvals width indent kvs :
  forall col ns,
  keyvalsOf (placeKeyvals width indent kvs col ns) = map ktext kvs.
Proof.
  induction kvs as [|kvt kvs IH]; intros col ns; [reflexivity|].
  cbn [placeKeyvals map].
  destruct (ktextRuneCount kvt + ns + col >? width); cbn.
  - now rewrite IH.
  - destruct (ns >? 0); cbn; now rewrite IH.
Qed.

Lemma keyvalsOf_render color width prefix m sb :
  render color width prefix m = Some sb -> keyvalsOf sb = map ktext (keyvals m).
Proof.
  unfold render.
  destruct (placeText _ _ _ _ _) as [[[out col'] ns]|] eqn:E; [|discriminate].
  intros H. injection H as <-. cbn [keyvalsOf].
  rewrite !keyvalsOf_app, (keyvalsOf_placeText _ _ _ _ _ _ _ _ E).
  rewrite keyvalsOf_placeKeyvals. cbn. now rewrite app_nil_r.
Qed.

Lemma InOrder_after xs a s : InOrder xs s -> InOrder xs (a ++ s).
Proof.
  intros H. destruct H as [s | x xs a' s H]; [constructor|].
  rewrite app_assoc. now constructor.
Qed.

(** The key/value texts written to a buffer occur in its bytes in the order
    in which they were written. *)
Lemma InOrder_Bytes sb : InOrder (keyvalsOf sb) (Bytes sb).
Proof.
  induction sb as [|p sb IH]; [constructor|].
  change (Bytes (p :: sb)) with (piece_bytes p ++ Bytes sb).
  destruct p; cbn [keyvalsOf]; try (now apply InOrder_after).
  apply (InOrder_cons b (keyvalsOf sb) [] (Bytes sb) IH).
Qed.

(** ** Escape bytes *)

Lemma Bytes_app a b : Bytes (a ++ b) = Bytes a ++ Bytes b.
Proof. unfold Bytes. now rewrite map_app, concat_app. Qed.

Lemma escCount_app a b : escCount (a ++ b) = (escCount a + escCount b)%nat.
Proof. apply count_occ_app. Qed.

Lemma escCount_spaces n : escCount (spaces n) = 0%nat.
Proof. induction n; [reflexivity | exact IHn]. Qed.

Lemma escCount_indentOf prefix : escCount (indentOf prefix) = 0%nat.
Proof.
  unfold indentOf. destruct (0 <? len prefix);
    [apply escCount_spaces | reflexivity].
Qed.

Lemma Bytes_cons p sb : Bytes (p :: sb) = piece_bytes p ++ Bytes sb.
Proof. reflexivity. Qed.

Lemma Bytes_punct t :
  Bytes (if 0 <? punctLen t then [PPunct (punct t)] else []) = punctBytes t.
Proof.
  unfold punctBytes. destruct (0 <? punctLen t); [|reflexivity].
  cbn. apply app_nil_r.
Qed.

Lemma Bytes_nil : Bytes [] = [].
Proof. reflexivity. Qed.

Ltac flat_bytes :=
  cbn [app];
  repeat first [ rewrite Bytes_app | rewrite Bytes_cons | rewrite Bytes_punct
               | rewrite Bytes_nil | rewrite app_nil_r ];
  cbn [piece_bytes].

Ltac count_esc :=
  flat_bytes; rewrite ?escCount_app;
  change (escCount newline) with 0%nat;
  change (escCount [x20]) with 0%nat;
  change (escCount escRed) with 1%nat;
  change (escCount escReset) with 1%nat;
  change (escCount []) with 0%nat.

(** Without colour, the escape bytes written for a token are those of its
    word and of its punctuation. *)
Lemma escCount_emitToken width indent col t out col1 :
  escCount indent = 0%nat ->
  emitToken false width indent col t = (out, col1) ->
  escCount (Bytes out) = (escCount (bs t) + escCount (punctBytes t))%nat.
Proof.
  intros Hi H. apply emitToken_cases in H. cbv zeta in H.
  destruct H as [(_ & -> & _) | (_ & sp & word & -> & _ & -> & Hw)].
  - count_esc. rewrite Hi. lia.
  - destruct Hw as [-> | (Hc & _)]; [|discriminate].
    destruct (0 <? len (ws t)); count_esc; lia.
Qed.

Lemma escCount_wrapped width indent col inp out colf :
  escCount indent = 0%nat ->
  wrapped false width indent col inp out colf ->
  (escCount (Bytes out) <= escCount inp)%nat.
Proof.
  intros Hi. induction 1 as [|col in0 t in3 out col1 outs colf _ Hs He _ IH];
    [cbn; lia|].
  rewrite Bytes_app, escCount_app, (escCount_emitToken _ _ _ _ _ _ Hi He).
  rewrite (scanned_split _ _ _ Hs), !escCount_app. lia.
Qed.

Lemma escCount_placeText width indent m col out col' ns :
  escCount indent = 0%nat ->
  placeText false width indent m col = Some (out, col', ns) ->
  (escCount (Bytes out) <= escCount (text m))%nat.
Proof.
  intros Hi H. apply placeText_cases in H.
  destruct H as [(_ & H & _) | (_ & _ & [(_ & -> & _) | (_ & -> & _)])].
  - eapply escCount_wrapped; eauto.
  - count_esc. lia.
  - count_esc. lia.
Qed.

Lemma escCount_placeKeyvals width indent kvs :
  escCount indent = 0%nat ->
  forall col ns,
  escCount (Bytes (placeKeyvals width indent kvs col ns))
  = list_sum (map escCount (map ktext kvs)).
Proof.
  intros Hi. induction kvs as [|kvt kvs IH]; intros col ns; [reflexivity|].
  rewrite placeKeyvals_cons.
  change (list_sum (map escCount (map ktext (kvt :: kvs))))
    with (escCount (ktext kvt) + list_sum (map escCount (map ktext kvs)))%nat.
  destruct (ktextRuneCount kvt + ns + col >? width).
  - count_esc. rewrite IH, Hi. lia.
  - destruct (ns >? 0); count_esc; rewrite IH; lia.
Qed.

(** Without colour, a rendering holds no escape byte that did not come with
    the header, the text or a key/value text. *)
Lemma escCount_render width prefix m sb :
  render false width prefix m = Some sb ->
  (escCount (Bytes sb)
   <= escCount prefix + escCount (text m)
      + list_sum (map escCount (map ktext (keyvals m))))%nat.
Proof.
  unfold render.
  destruct (placeText _ _ _ _ _) as [[[out col'] ns]|] eqn:E; [|discriminate].
  intros H. injection H as <-.
  count_esc.
  rewrite (escCount_placeKeyvals _ _ _ (escCount_indentOf prefix)).
  pose proof (escCount_placeText _ _ _ _ _ _ _ (escCount_indentOf prefix) E).
  lia.
Qed.

(** ** White space in the wrapped text *)

Lemma noWsRun_black_app w s :
  blackBytes w -> noWsRun s = true -> noWsRun (w ++ s) = true.
Proof.
  intros Hw Hs. induction Hw as [|c w Hc _ IH]; [exact Hs|].
  cbn [app noWsRun]. destruct (w ++ s); [reflexivity|].
  rewrite Hc, IH. reflexivity.
Qed.

Lemma noWsRun_black w : blackBytes w -> noWsRun w = true.
Proof.
  intros H. rewrite <- (app_nil_r w). now apply noWsRun_black_app.
Qed.


Lemma takeWhile_nil_drop p s : takeWhile p s = [] -> dropWhile p s = s.
Proof.
  destruct s as [|c s]; [reflexivity|]. simpl.
  destruct (p c); [discriminate | reflexivity].
Qed.

Lemma is_black_not_space c : is_black c = true -> is_space c = false.
Proof.
  unfold is_black. intros H. apply andb_true_iff in H.
  destruct H as [H _]. now apply negb_true_iff in H.
Qed.

Lemma scanned_black in0 t in3 :
  scanned in0 t in3 -> blackBytes (bs t) /\ blackBytes (punctBytes t).
Proof.
  intros H. inversion H as [in3' E | r in2 Hc]; subst;
    cbn [bs punctBytes punctLen punct].
  - split; [|repeat constructor].
    eapply Forall_impl; [|apply takeWhile_all]. apply is_black_not_space.
  - split; [|constructor].
    eapply Forall_impl; [|apply takeWhile_all]. apply is_black_not_space.
Qed.

(** A token without word and punctuation is the last one. *)
Lemma scanned_empty_last in0 t in3 :
  scanned in0 t in3 -> bs t = [] -> punctBytes t = [] -> in3 = [].
Proof.
  intros H Hb Hp. inversion H as [in3' E | r in2 Hc]; subst.
  - discriminate.
  - cbn [bs] in Hb. subst in2. rewrite (takeWhile_nil_drop _ _ Hb) in *.
    destruct Hc as [Hc | (c & s & Hc & Hs)]; [exact Hc|].
    rewrite (dropWhile_head _ _ _ _ Hc) in Hs. discriminate.
Qed.


Lemma blackBytes_app a b : blackBytes a -> blackBytes b -> blackBytes (a ++ b).
Proof. intros; now apply Forall_app. Qed.

Lemma blackBytes_esc : blackBytes escRed /\ blackBytes escReset.
Proof. split; repeat constructor. Qed.

(** What a turn of the loop writes between the line breaks: at most one
    space, then bytes that are not white space. *)
Lemma turn_content color width indent col in0 t in3 out col1 :
  scanned in0 t in3 ->
  emitToken color width indent col t = (out, col1) ->
  exists sp w,
    Bytes (filter notBreak out) = sp ++ w /\ blackBytes w /\
    (sp = [] \/ sp = [x20]) /\ (w = [] -> in3 = []).
Proof.
  intros Hs He. destruct (scanned_black _ _ _ Hs) as [Hb Hp].
  destruct blackBytes_esc as [Hr Hr'].
  pose proof (scanned_empty_last _ _ _ Hs) as Hl.
  apply emitToken_cases in He. cbv zeta in He.
  destruct He as [(_ & -> & _) | (_ & sp & word & -> & _ & -> & Hw)].
  - exists [], (bs t ++ punctBytes t).
    split; [|split; [now apply blackBytes_app|split; [now left|]]].
    + rewrite filter_app. cbn [filter notBreak].
      destruct (0 <? punctLen t) eqn:E; unfold punctBytes; rewrite E;
        cbn [filter notBreak]; flat_bytes; reflexivity.
    + intros E. apply app_eq_nil in E. now apply Hl.
  - destruct Hw as [-> | (_ & _ & ->)].
    + exists (if 0 <? len (ws t) then [x20] else []), (bs t ++ punctBytes t).
      split; [|split; [now apply blackBytes_app|split]].
      * rewrite !filter_app.
        destruct (0 <? punctLen t) eqn:E; unfold punctBytes; rewrite E;
          destruct (0 <? len (ws t)); cbn [filter notBreak]; flat_bytes;
          reflexivity.
      * destruct (0 <? len (ws t)); auto.
      * intros E. apply app_eq_nil in E. now apply Hl.
    + exists (if 0 <? len (ws t) then [x20] else []),
             (escRed ++ bs t ++ escReset ++ punctBytes t).
      split; [|split; [|split]].
      * rewrite !filter_app.
        destruct (0 <? punctLen t) eqn:E; unfold punctBytes; rewrite E;
          destruct (0 <? len (ws t)); cbn [filter notBreak]; flat_bytes;
          rewrite <- ?app_assoc; reflexivity.
      * repeat apply blackBytes_app; assumption.
      * destruct (0 <? len (ws t)); auto.
      * intros E. discriminate.
Qed.


(** ** Colour and layout *)

(** The writes for a token with colour off are those with colour on less the
    escape sequences, and [col] moves alike. *)
Lemma emitToken_colour width indent col t :
  emitToken false width indent col t
  = dropEsc (emitToken true width indent col t).
Proof.
  unfold emitToken, dropEsc.
  destruct (RuneCount (bs t) + (if 0 <? len (ws t) then 1 else 0)
            + punctLen t + col >? width);
    destruct (0 <? len (ws t)); destruct (isError (bs t));
    destruct (0 <? punctLen t); reflexivity.
Qed.

Lemma wrapLoop_colour width indent :
  forall fuel col inp,
  wrapLoop fuel false width indent col inp
  = option_map dropEsc (wrapLoop fuel true width indent col inp).
Proof.
  induction fuel as [|fuel IH]; intros col inp.
  - destruct inp; reflexivity.
  - destruct inp as [|c s]; [reflexivity|].
    cbn [wrapLoop]. unfold wrapStep.
    destruct (scanToken (c :: s)) as [t in3].
    rewrite emitToken_colour.
    destruct (emitToken true width indent col t) as [o col1].
    unfold dropEsc at 1. cbn [fst snd]. rewrite IH.
    destruct (wrapLoop fuel true width indent col1 in3) as [[outs cf]|];
      [|reflexivity].
    cbn. unfold dropEsc. cbn [fst snd]. now rewrite filter_app.
Qed.

Lemma placeKeyvals_notEsc width indent kvs :
  forall col ns,
  filter notEsc (placeKeyvals width indent kvs col ns)
  = placeKeyvals width indent kvs col ns.
Proof.
  induction kvs as [|kvt kvs IH]; intros col ns; [reflexivity|].
  rewrite placeKeyvals_cons.
  destruct (ktextRuneCount kvt + ns + col >? width);
    [|destruct (ns >? 0)]; cbn [filter notEsc]; now rewrite IH.
Qed.



(** ** Counting runes *)










Lemma rcf_skipn s : forall k,
  rune_count_from k s = rune_count_from 0 (skipn k s).
Proof.
  induction s as [|c s IH]; intros [|k]; try reflexivity.
  cbn [rune_count_from skipn]. apply IH.
Qed.

Lemma rcn_cons c s :
  rune_count_from 0 (c :: s)
  = S (rune_count_from 0 (skipn (runeSize (c :: s) - 1) s)).
Proof.
  cbn [rune_count_from]. rewrite rcf_skipn.
  now rewrite Nat.sub_1_r.
Qed.









Lemma RuneCount_nonneg s : 0 <= RuneCount s.
Proof. unfold RuneCount. lia. Qed.

(** ** Lines within the width *)













Lemma lineWidth_nonneg l : 0 <= lineWidth l.
Proof. apply RuneCount_nonneg. Qed.



(** The punctuation of a token is nothing or a comma. *)
Lemma scanned_punct in0 t in3 :
  scanned in0 t in3 -> punctLen t = 0 \/ (punctLen t = 1 /\ punct t = 44).
Proof. inversion 1; cbn; auto. Qed.








(** A token that stays on the line is written between the escape pair when
    colour is on and it starts with an error prefix ... *)
Lemma emitToken_coloured_on_line width indent col t out col1 :
  isError (bs t) = true ->
  RuneCount (bs t) + (if 0 <? len (ws t) then 1 else 0) + punctLen t + col
  <= width ->
  emitToken true width indent col t = (out, col1) ->
  out = (if 0 <? len (ws t) then [PSpace] else [])
        ++ [PEsc escRed; PWord (bs t); PEsc escReset]
        ++ (if 0 <? punctLen t then [PPunct (punct t)] else []).
Proof.
  intros He Hle H. unfold emitToken in H. rewrite He in H.
  destruct (Z.gtb_spec (RuneCount (bs t)
              + (if 0 <? len (ws t) then 1 else 0) + punctLen t + col) width)
    as [Hgt|_]; [lia|].
  destruct (0 <? len (ws t)); destruct (0 <? punctLen t);
    injection H as <- _; reflexivity.
Qed.

(** ... but a token that goes to a new line is written bare, whatever it
    starts with: no escape sequence is among its writes. *)
Lemma emitToken_bare_after_wrap color width indent col t out col1 :
  RuneCount (bs t) + (if 0 <? len (ws t) then 1 else 0) + punctLen t + col
  > width ->
  emitToken color width indent col t = (out, col1) ->
  out = [PNewline; PIndent indent; PWord (bs t)]
        ++ (if 0 <? punctLen t then [PPunct (punct t)] else [])
  /\ filter notEsc out = out.
Proof.
  intros Hgt H. apply emitToken_cases in H. cbv zeta in H.
  destruct H as [(_ & -> & _) | (Hle & _)]; [|lia].
  split; [reflexivity|]. destruct (0 <? punctLen t); reflexivity.
Qed.

(** ** [Write] from end to end *)

Section Properties.

Variable error : Type.
Variable pairString : bytes -> iface -> bytes.


Lemma list_pair_ind {A} (P : list A -> Prop) :
  P [] -> (forall x, P [x]) -> (forall x y l, P l -> P (x :: y :: l)) ->
  forall l, P l.
Proof.
  intros H0 H1 H2.
  assert (H : forall l, P l /\ forall x, P (x :: l)).
  { induction l as [|y l [IH1 IH2]]; split; auto. }
  intros l. apply H.
Qed.

Lemma evenStrings_tail x y l : evenStrings (x :: y :: l) -> evenStrings l.
Proof.
  intros [[k Hk] Hs]. split.
  - exists (k - 1)%nat. simpl in Hk. lia.
  - intros i z [j Hj] Hn. apply (Hs (S (S i)) z); [|exact Hn].
    exists (S j). lia.
Qed.

(** The loop over [msg.List] runs through exactly on the lists of even length
    with strings at the even indices. *)
Lemma keyvalLoop_runs l :
  forall m, evenStrings l <-> exists m', keyvalLoop pairString l m = Some m'.
Proof.
  induction l as [|x|x y l IH] using list_pair_ind; intros m.
  - split; [intros _; simpl; eauto|]. intros _. split; [now exists 0%nat|].
    intros [|i] z _ H; discriminate.
  - split.
    + intros [[k Hk] _]. simpl in Hk. lia.
    + intros [m' H]. simpl in H. destruct x; discriminate.
  - split.
    + intros H. destruct (proj2 H 0%nat x) as [s ->];
        [now exists 0%nat | reflexivity |].
      cbn [keyvalLoop]. apply IH. now apply evenStrings_tail in H.
    + intros [m' H]. destruct x as [key|tag]; [|discriminate].
      cbn [keyvalLoop] in H.
      assert (E : evenStrings l) by (eapply IH; eauto).
      destruct E as [[k Hk] Hs]. split.
      * exists (S k). simpl. lia.
      * intros [|[|i]] z [j Hj] Hn.
        -- injection Hn as <-. eauto.
        -- lia.
        -- apply (Hs i z); [|exact Hn]. exists (j - 1)%nat. lia.
Qed.

Lemma flattenPairs_evenStrings ps : evenStrings (flattenPairs ps).
Proof.
  induction ps as [|[k v] ps [[n Hn] Hs]].
  - split; [now exists 0%nat|]. intros [|i] z _ H; discriminate.
  - split.
    + exists (S n). simpl. simpl in Hn. lia.
    + intros [|[|i]] z [j Hj] Hz.
      * injection Hz as <-. eauto.
      * lia.
      * apply (Hs i z); [|exact Hz]. exists (j - 1)%nat. lia.
Qed.

(** On the list of a record the loop collects the rendered pairs in order. *)
Lemma keyvalLoop_record ps :
  forall m,
  keyvalLoop pairString (flattenPairs ps) m =
  Some {| text := text m;
          textRuneCount := textRuneCount m;
          totalRuneCount :=
            fold_left
              (fun n kv => n + (ktextRuneCount (pairText pairString kv) + 1))
              ps (totalRuneCount m);
          keyvals := keyvals m ++ map (pairText pairString) ps |}.
Proof.
  induction ps as [|[k v] ps IH]; intros m.
  - simpl. rewrite app_nil_r. now destruct m.
  - cbn [flattenPairs flat_map app keyvalLoop fst snd].
    fold (flattenPairs ps). rewrite IH. cbn. now rewrite <- app_assoc.
Qed.

Lemma render_finishes color width prefix m :
  exists sb, render color width prefix m = Some sb.
Proof.
  unfold render, placeText.
  destruct ((len prefix + textRuneCount m >? width) || color).
  - destruct (wrapLoop_finishes color width (indentOf prefix)
                (length (text m)) (len prefix) (text m) (le_n _))
      as (out & col' & ->). eauto.
  - destruct (textRuneCount m >? 0); cbn; eauto.
Qed.

(** [Write] always comes to an end. *)
Lemma Write_finishes (w : Writer error) msg :
  exists o, Write pairString w msg = Some o.
Proof.
  unfold Write. destruct (extractHeader (Text msg)) as [prefix t].
  destruct (suppressed (Verbose w) t); [eauto|].
  destruct (keyvalLoop pairString (List msg) _) as [m|]; [|eauto].
  destruct (render_finishes (colorOutput w) (Width w tt) prefix m) as [sb ->].
  destruct (Out w (Bytes sb)). eauto.
Qed.

(** What [Write] does with a record. *)
Lemma Write_record (w : Writer error) r :
  Write pairString w (parsed r) =
  let '(prefix, t) := extractHeader (rtext r) in
  if suppressed (Verbose w) t then Some (Return [] 0 None) else
  match render (colorOutput w) (Width w tt) prefix
               (recordText pairString t (rpairs r)) with
  | Some sb => let '(n, err) := Out w (Bytes sb) in
               Some (Return [Bytes sb] n err)
  | None => None
  end.
Proof.
  unfold Write, parsed. cbn [Text List].
  destruct (extractHeader (rtext r)) as [prefix t].
  destruct (suppressed (Verbose w) t); [reflexivity|].
  rewrite keyvalLoop_record. reflexivity.
Qed.

Lemma render_ends_with_newline color width prefix m sb :
  render color width prefix m = Some sb -> exists sb', sb = sb' ++ [PNewline].
Proof.
  unfold render. destruct (placeText _ _ _ _ _) as [[[out col'] ns]|];
    [|discriminate].
  intros H. injection H as <-.
  exists (PPrefix prefix :: out ++
          placeKeyvals width (indentOf prefix) (keyvals m) col' ns).
  cbn. now rewrite <- app_assoc.
Qed.

Lemma render_not_empty color width prefix m sb :
  render color width prefix m = Some sb -> Bytes sb <> [].
Proof.
  intros H. destruct (render_ends_with_newline _ _ _ _ _ H) as [sb' ->].
  rewrite Bytes_app. intros E. apply app_eq_nil in E. destruct E as [_ E].
  discriminate.
Qed.

(** If [Write] is not held back by the verbosity filter and the list is not
    of that shape, it panics. *)
Lemma Write_panics_otherwise (w : Writer error) msg :
  suppressed (Verbose w) (snd (extractHeader (Text msg))) = false ->
  ~ evenStrings (List msg) -> Write pairString w msg = Some Panic.
Proof.
  intros Hs Hn. unfold Write.
  destruct (extractHeader (Text msg)) as [prefix t]. cbn [snd] in Hs.
  rewrite Hs.
  destruct (keyvalLoop pairString (List msg) _) as [m|] eqn:E; [|reflexivity].
  exfalso. apply Hn. eapply keyvalLoop_runs. eauto.
Qed.

(** On a writer that is set up, a list of that shape lets [Write] run to its
    end and return. *)
Lemma Write_returns (w : Writer error) (msg : Message) :
  evenStrings (List msg) ->
  exists written n err, Write pairString w msg = Some (Return written n err).
Proof.
  intros H. unfold Write.
  destruct (extractHeader (Text msg)) as [prefix t].
  destruct (suppressed (Verbose w) t); [eauto|].
  destruct (proj1 (keyvalLoop_runs (List msg)
                     {| text := t; textRuneCount := RuneCount t;
                        totalRuneCount := RuneCount t; keyvals := [] |}) H)
    as [m ->].
  destruct (render_finishes (colorOutput w) (Width w tt) prefix m) as [sb ->].
  destruct (Out w (Bytes sb)). eauto.
Qed.

(** C5. A record whose text, once the header is off, begins with ["debug:"]
    or ["trace:"]: with [Verbose] off, [Write] writes nothing and returns
    [(0, nil)]; with [Verbose] on, it writes the rendering of the record,
    which is not empty, and returns what the underlying write returns. *)
Theorem C5_verbosity_gating (w : Writer error) (r : LogRecord) (vp : bytes) :
  In vp verbosePrefixes ->
  HasPrefix (snd (extractHeader (rtext r))) vp = true ->
  (Verbose w = false ->
   Write pairString w (parsed r) = Some (Return [] 0 None)) /\
  (Verbose w = true ->
   exists sb,
     render (colorOutput w) (Width w tt) (fst (extractHeader (rtext r)))
            (recordText pairString (snd (extractHeader (rtext r))) (rpairs r))
     = Some sb
     /\ Bytes sb <> []
     /\ Write pairString w (parsed r) =
        Some (Return [Bytes sb] (fst (Out w (Bytes sb)))
                     (snd (Out w (Bytes sb))))).
Proof.
  intros Hin Hp. rewrite Write_record.
  destruct (extractHeader (rtext r)) as [prefix t]. cbn [fst snd] in *.
  split; intros Hv.
  - unfold suppressed. rewrite Hv. cbn [negb andb].
    assert (E : existsb (fun vp => HasPrefix t vp) verbosePrefixes = true).
    { apply existsb_exists. eauto. }
    now rewrite E.
  - unfold suppressed. rewrite Hv. cbn [negb andb].
    destruct (render_finishes (colorOutput w) (Width w tt) prefix
                (recordText pairString t (rpairs r))) as [sb E].
    exists sb. rewrite E. split; [reflexivity|]. split.
    + eapply render_not_empty; eauto.
    + now destruct (Out w (Bytes sb)).
Qed.

(** C8. When the write to the underlying stream fails, [Write] returns the
    very error and byte count of that write, and that write is the only one
    it makes. *)
Theorem C8_write_error_propagated (w : Writer error) (msg : Message)
    (written : list bytes) (n' : Z) (err' : option error)
    (buf : bytes) (n : Z) (e : error) :
  Write pairString w msg = Some (Return written n' err') ->
  In buf written ->
  Out w buf = (n, Some e) ->
  written = [buf] /\ n' = n /\ err' = Some e.
Proof.
  unfold Write. destruct (extractHeader (Text msg)) as [prefix t].
  destruct (suppressed (Verbose w) t).
  - intros H. injection H as <- _ _. intros [].
  - destruct (keyvalLoop pairString (List msg) _) as [m|]; [|discriminate].
    destruct (render _ _ _ _) as [sb|]; [|discriminate].
    destruct (Out w (Bytes sb)) as [k o] eqn:E.
    intros H. injection H as <- <- <-. intros [<-|[]] Ho.
    rewrite E in Ho. injection Ho as -> ->. auto.
Qed.

Lemma ktext_pairText ps :
  map ktext (map (pairText pairString) ps) = pairStrings pairString ps.
Proof. unfold pairStrings. rewrite map_map. reflexivity. Qed.

(** The buffer that [Write] hands to the underlying stream is the rendering
    of the record. *)
Lemma Write_written (w : Writer error) r written n err buf :
  Write pairString w (parsed r) = Some (Return written n err) ->
  In buf written ->
  exists sb,
    render (colorOutput w) (Width w tt) (fst (extractHeader (rtext r)))
           (recordText pairString (snd (extractHeader (rtext r))) (rpairs r))
    = Some sb /\ buf = Bytes sb.
Proof.
  rewrite Write_record. destruct (extractHeader (rtext r)) as [prefix t].
  cbn [fst snd]. destruct (suppressed (Verbose w) t).
  - intros H. injection H as <- _ _. intros [].
  - destruct (render _ _ _ _) as [sb|]; [|discriminate].
    destruct (Out w (Bytes sb)). intros H. injection H as <- _ _.
    intros [<-|[]]. eauto.
Qed.

(** C6. In what [Write] emits for a record, the writes of the key/value
    texts are those of the pairs of the record in the order supplied, and
    the texts occur in the emitted bytes in that order, whatever the width
    and wherever the line breaks fall. *)
Theorem C6_pairs_in_order (w : Writer error) (r : LogRecord)
    (written : list bytes) (n : Z) (err : option error) (buf : bytes) :
  Write pairString w (parsed r) = Some (Return written n err) ->
  In buf written ->
  exists sb,
    render (colorOutput w) (Width w tt) (fst (extractHeader (rtext r)))
           (recordText pairString (snd (extractHeader (rtext r))) (rpairs r))
    = Some sb
    /\ buf = Bytes sb
    /\ keyvalsOf sb = pairStrings pairString (rpairs r)
    /\ InOrder (pairStrings pairString (rpairs r)) buf.
Proof.
  intros H Hin. destruct (Write_written w r written n err buf H Hin)
    as (sb & Hr & ->).
  exists sb. split; [exact Hr|]. split; [reflexivity|].
  pose proof (keyvalsOf_render _ _ _ _ _ Hr) as Hk.
  cbn [keyvals recordText] in Hk. rewrite ktext_pairText in Hk.
  split; [exact Hk|]. rewrite <- Hk. apply InOrder_Bytes.
Qed.

(** [NewWriter] turns colour on only for a terminal that is a file. *)
Lemma NewWriter_colour (d : destination error) :
  colorOutput (NewWriter d) = true <->
  exists f c, fd d = Some f /\ isTerminal f = true /\ asFile f = Some c.
Proof.
  unfold NewWriter. destruct (fd d) as [f|]; cbn.
  - destruct (isTerminal f) eqn:Et; cbn.
    + destruct (asFile f) as [c|] eqn:Ef; cbn.
      * split; [intros _; eauto | reflexivity].
      * split; [discriminate|]. intros (f' & c & E & _ & E').
        injection E as <-. rewrite Ef in E'. discriminate.
    + split; [discriminate|]. intros (f' & c & E & E' & _).
      injection E as <-. rewrite Et in E'. discriminate.
  - split; [discriminate|]. intros (f & c & E & _). discriminate.
Qed.

(** C10. With colour off, be it that the writer was never given colour or
    that [NoColor] was called, the bytes [Write] emits hold no more escape
    bytes [\x1b] than the message text and the rendered key/value texts
    together. *)
Theorem C10_no_escape_without_colour (w : Writer error) (r : LogRecord)
    (written : list bytes) (n : Z) (err : option error) (buf : bytes) :
  colorOutput w = false \/ (exists w0, w = NoColor w0) ->
  Write pairString w (parsed r) = Some (Return written n err) ->
  In buf written ->
  (escCount buf
   <= escCount (rtext r)
      + list_sum (map escCount (pairStrings pairString (rpairs r))))%nat.
Proof.
  intros Hc H Hin.
  assert (Hoff : colorOutput w = false)
    by (destruct Hc as [Hc | [w0 ->]]; [exact Hc | reflexivity]).
  destruct (Write_written w r written n err buf H Hin) as (sb & Hr & ->).
  rewrite Hoff in Hr. apply escCount_render in Hr.
  cbn [text keyvals recordText] in Hr. rewrite ktext_pairText in Hr.
  rewrite <- (extractHeader_split (rtext r)) at 1.
  rewrite escCount_app. lia.
Qed.



End Properties.

(** ** Examples for the end-to-end properties *)

Lemma C5_witness :
  In (lit "debug:") verbosePrefixes /\
  HasPrefix (snd (extractHeader (rtext debugRecord))) (lit "debug:") = true /\
  Write exampleString (exampleWriter 80 false false) (parsed debugRecord)
  = Some (Return [] 0 None).
Proof.
  assert (H1 : In (lit "debug:") verbosePrefixes) by (simpl; auto).
  assert (H2 : HasPrefix (snd (extractHeader (rtext debugRecord)))
                 (lit "debug:") = true) by reflexivity.
  split; [exact H1|]. split; [exact H2|].
  exact (proj1 (C5_verbosity_gating bytes exampleString
                  (exampleWriter 80 false false) debugRecord (lit "debug:")
                  H1 H2) eq_refl).
Defined.

Lemma C8_witness :
  Write exampleString failingSink (parsed helloRecord)
  = Some (Return [lit "hello world user=ann n=?" ++ newline] 3
                 (Some (lit "short write"))) /\
  [lit "hello world user=ann n=?" ++ newline]
  = [lit "hello world user=ann n=?" ++ newline] /\
  3 = 3 /\ Some (lit "short write") = Some (lit "short write").
Proof.
  assert (H : Write exampleString failingSink (parsed helloRecord)
              = Some (Return [lit "hello world user=ann n=?" ++ newline] 3
                             (Some (lit "short write")))) by reflexivity.
  split; [exact H|].
  exact (C8_write_error_propagated bytes exampleString failingSink
           (parsed helloRecord) _ _ _
           (lit "hello world user=ann n=?" ++ newline) 3 (lit "short write")
           H (or_introl eq_refl) eq_refl).
Defined.

(** C2. With colour on and a width of 10, the token ["error:"] of the text
    ["aaaaaaaa error: x"] does not fit after the first word and goes to a
    continuation line: it is written there without the escape pair, although
    [isError] holds of it.  With a width of 80 the same token stays on the
    first line and is written between ["\x1b[0;31m"] and ["\x1b[0m"]. *)
Theorem C2_error_token_plain_after_wrap :
  let m := recordText exampleString (lit "aaaaaaaa error: x") [] in
  isError (lit "error:") = true /\
  render true 10 [] m =
    Some [PPrefix []; PWord (lit "aaaaaaaa");
          PNewline; PIndent (lit "    "); PWord (lit "error:");
          PNewline; PIndent (lit "    "); PWord (lit "x"); PNewline] /\
  render true 80 [] m =
    Some [PPrefix []; PWord (lit "aaaaaaaa");
          PSpace; PEsc escRed; PWord (lit "error:"); PEsc escReset;
          PSpace; PWord (lit "x"); PNewline] /\
  Write exampleString (exampleWriter 10 false true)
        (parsed {| rtext := lit "aaaaaaaa error: x"; rpairs := [] |}) =
    Some (Return [lit "aaaaaaaa" ++ newline ++ lit "    error:" ++ newline
                    ++ lit "    x" ++ newline] 26 None).
Proof. repeat split; reflexivity. Qed.

(** ** Header extraction twice *)

(** C4, as stated, fails: the text left by a first extraction may itself
    start with a date, which a second extraction takes off. *)
Lemma C4_counterexample :
  let t := lit "2024/01/02 2024/01/02 x" in
  snd (extractHeader t) = lit "2024/01/02 x" /\
  snd (extractHeader (snd (extractHeader t))) = lit "x" /\
  snd (extractHeader (snd (extractHeader t))) <> snd (extractHeader t).
Proof. repeat split; try reflexivity. discriminate. Qed.

(** C4, amended. When the text left by a first extraction does not start
    with a decimal digit, a second extraction takes nothing off: it yields
    the empty prefix and the same text. *)
Theorem C4_second_extraction_strips_nothing (t : bytes) :
  startsWithDigit (snd (extractHeader t)) = false ->
  extractHeader (snd (extractHeader t)) = ([], snd (extractHeader t)).
Proof. apply extractHeader_no_digit. Qed.

Lemma C4_witness :
  startsWithDigit (snd (extractHeader (lit "2024/01/02 15:04:05 started")))
  = false /\
  extractHeader (snd (extractHeader (lit "2024/01/02 15:04:05 started")))
  = ([], lit "started").
Proof.
  split; [reflexivity|].
  exact (C4_second_extraction_strips_nothing
           (lit "2024/01/02 15:04:05 started") eq_refl).
Defined.

(** ** Pair order and escape bytes on examples *)

Lemma C6_witness :
  Write exampleString (exampleWriter 14 false false) (parsed helloRecord)
  = Some (Return [lit "hello world" ++ newline ++ lit "    user=ann"
                    ++ newline ++ lit "    n=?" ++ newline] 33 None) /\
  exists sb,
    render false 14 [] (recordText exampleString (lit "hello world")
                                   (rpairs helloRecord)) = Some sb
    /\ lit "hello world" ++ newline ++ lit "    user=ann"
         ++ newline ++ lit "    n=?" ++ newline = Bytes sb
    /\ keyvalsOf sb = [lit "user=ann"; lit "n=?"]
    /\ InOrder [lit "user=ann"; lit "n=?"]
         (lit "hello world" ++ newline ++ lit "    user=ann"
            ++ newline ++ lit "    n=?" ++ newline).
Proof.
  assert (H : Write exampleString (exampleWriter 14 false false)
                (parsed helloRecord)
              = Some (Return [lit "hello world" ++ newline
                                ++ lit "    user=ann" ++ newline
                                ++ lit "    n=?" ++ newline] 33 None))
    by reflexivity.
  split; [exact H|].
  exact (C6_pairs_in_order bytes exampleString (exampleWriter 14 false false)
           helloRecord _ _ _ _ H (or_introl eq_refl)).
Defined.

Lemma C10_witness :
  (exists w0, NoColor (exampleWriter 80 false true) = NoColor w0) /\
  Write exampleString (NoColor (exampleWriter 80 false true))
        (parsed errorRecord)
  = Some (Return [lit "error: disk full dev=sda" ++ newline] 25 None) /\
  (escCount (lit "error: disk full dev=sda" ++ newline)
   <= escCount (rtext errorRecord)
      + list_sum (map escCount (pairStrings exampleString (rpairs errorRecord)))
  )%nat.
Proof.
  assert (H1 : exists w0, NoColor (exampleWriter 80 false true) = NoColor w0)
    by (now exists (exampleWriter 80 false true)).
  assert (H2 : Write exampleString (NoColor (exampleWriter 80 false true))
                 (parsed errorRecord)
               = Some (Return [lit "error: disk full dev=sda" ++ newline]
                              25 None)) by reflexivity.
  split; [exact H1|]. split; [exact H2|].
  exact (C10_no_escape_without_colour bytes exampleString
           (NoColor (exampleWriter 80 false true)) errorRecord _ _ _ _
           (or_intror H1) H2 (or_introl eq_refl)).
Defined.

(** ** White-space runs *)




(** ** Line breaks with and without colour *)




(** ** Line overflow *)



(** ** The scenarios of the specification *)

Example scenario_hello_world :
  Write exampleString (exampleWriter 80 false false)
        (parsed {| rtext := lit "hello world"; rpairs := [] |})
  = Some (Return [lit "hello world" ++ newline] 12 None).
Proof. reflexivity. Qed.

Example scenario_debug_suppressed :
  Write exampleString (exampleWriter 80 false false)
        (parsed {| rtext := lit "debug: detail"; rpairs := [] |})
  = Some (Return [] 0 None).
Proof. reflexivity. Qed.

Example scenario_header :
  extractHeader (lit "2024/01/02 15:04:05 started")
  = (lit "2024/01/02 15:04:05 ", lit "started") /\
  len (indentOf (lit "2024/01/02 15:04:05 ")) = 20 /\
  Write exampleString (exampleWriter 80 false false)
        (parsed {| rtext := lit "2024/01/02 15:04:05 started"; rpairs := [] |})
  = Some (Return [lit "2024/01/02 15:04:05 started" ++ newline] 28 None).
Proof. repeat split; reflexivity. Qed.

Example scenario_error_coloured :
  render true 80 [] (recordText exampleString (lit "error: disk full") [])
  = Some [PPrefix []; PEsc escRed; PWord (lit "error:"); PEsc escReset;
          PSpace; PWord (lit "disk"); PSpace; PWord (lit "full"); PNewline] /\
  emitToken true 80 (lit "    ") 0 (fst (scanToken (lit "error: disk full")))
  = ([PEsc escRed; PWord (lit "error:"); PEsc escReset], 6).
Proof. split; reflexivity. Qed.

Example scenario_pair_wraps :
  render false 12 [] (recordText exampleString (lit "hello")
                                 [(lit "user", IString (lit "ann"))])
  = Some [PPrefix []; PText (lit "hello");
          PNewline; PIndent (lit "    "); PKeyval (lit "user=ann");
          PNewline].
Proof. reflexivity. Qed.

(** * Further properties of the code *)

(** ** What the matcher returns is a match *)

Lemma rep_match_sound p k : forall hi lo s res,
  rep_match p lo hi s k = Some res ->
  exists q s', s = q ++ s' /\ Forall (fun c => p c = true) q /\
               (lo <= length q <= hi)%nat /\ k s' = Some res.
Proof.
  assert (Hstop : forall lo hi s res,
            (if Nat.eqb lo 0 then k s else None) = Some res ->
            exists q s', s = q ++ s' /\ Forall (fun c => p c = true) q /\
                         (lo <= length q <= hi)%nat /\ k s' = Some res).
  { intros lo hi s res H.
    destruct (Nat.eqb_spec lo 0) as [->|]; [|discriminate].
    exists [], s. repeat split; auto. cbn. lia. }
  induction hi as [|hi IH]; intros lo s res H.
  - apply Hstop. destruct s; exact H.
  - cbn [rep_match] in H. destruct s as [|c s]; [now apply Hstop|].
    destruct (p c) eqn:Hc; [|now apply Hstop].
    destruct (rep_match p (Nat.pred lo) hi s k) as [x|] eqn:E;
      [|now apply Hstop].
    injection H as ->. destruct (IH _ _ _ E) as (q & s' & -> & Hq & Hl & Hk).
    exists (c :: q), s'. repeat split; auto; cbn [length]; lia.
Qed.

Lemma star_match_sound p k : forall s res,
  star_match p s k = Some res ->
  exists q s', s = q ++ s' /\ Forall (fun c => p c = true) q /\
               k s' = Some res.
Proof.
  induction s as [|c s IH]; intros res H; cbn [star_match] in H.
  - exists [], []. auto.
  - destruct (p c) eqn:Hc; [|exists [], (c :: s); auto].
    destruct (star_match p s k) as [x|] eqn:E; [|exists [], (c :: s); auto].
    injection H as ->. destruct (IH _ eq_refl) as (q & s' & -> & Hq & Hk).
    exists (c :: q), s'. auto.
Qed.

Lemma rmatch_sound r : forall s k res,
  rmatch r s k = Some res ->
  exists p s', s = p ++ s' /\ matches r p /\ k s' = Some res.
Proof.
  induction r as [p|c0|r1 IH1 r2 IH2|r1 IH1|p lo hi|p]; intros s k res H;
    cbn [rmatch] in H.
  - destruct s as [|c s]; [discriminate|]. destruct (p c) eqn:Hc;
      [|discriminate].
    exists [c], s. repeat split; auto. now constructor.
  - destruct s as [|c s]; [discriminate|].
    destruct (byte_eqb c c0) eqn:Hc; [|discriminate].
    apply Byte.byte_dec_bl in Hc. subst c0.
    exists [c], s. repeat split; auto. constructor.
  - destruct (IH1 _ _ _ H) as (p1 & s1 & -> & M1 & H1).
    destruct (IH2 _ _ _ H1) as (p2 & s2 & -> & M2 & H2).
    exists (p1 ++ p2), s2. rewrite app_assoc. repeat split; auto.
    now constructor.
  - destruct (rmatch r1 s k) as [x|] eqn:E.
    + injection H as ->. destruct (IH1 _ _ _ E) as (p1 & s1 & -> & M1 & H1).
      exists p1, s1. repeat split; auto. now constructor.
    + exists [], s. repeat split; auto. constructor.
  - destruct (rep_match_sound _ _ _ _ _ _ H) as (q & s' & -> & Hq & Hl & Hk).
    exists q, s'. repeat split; auto. now constructor.
  - destruct s as [|c s]; [discriminate|]. destruct (p c) eqn:Hc;
      [|discriminate].
    destruct (star_match_sound _ _ _ _ H) as (q & s' & -> & Hq & Hk).
    exists (c :: q), s'. repeat split; auto.
    constructor; [discriminate | now constructor].
Qed.

Lemma matches_maxLen r p :
  matches r p -> plusFree r = true -> (length p <= maxLen r)%nat.
Proof.
  induction 1 as [p c Hc|c|r1 r2 p1 p2 _ IH1 _ IH2|r|r p _ IH|p lo hi s Hs Hl
                 |p s Hn Hs]; cbn [plusFree maxLen length]; intros Hf;
    try lia; try discriminate.
  - apply andb_true_iff in Hf. destruct Hf as [F1 F2].
    rewrite length_app. specialize (IH1 F1). specialize (IH2 F2). lia.
  - auto.
Qed.

Lemma matches_chars (P : byte -> Prop) r p :
  matches r p -> charsIn P r -> Forall P p.
Proof.
  induction 1 as [p c Hc|c|r1 r2 p1 p2 _ IH1 _ IH2|r|r p _ IH|p lo hi s Hs Hl
                 |p s Hn Hs]; cbn [charsIn]; intros Hp.
  - repeat constructor. auto.
  - repeat constructor. auto.
  - destruct Hp. apply Forall_app. auto.
  - constructor.
  - auto.
  - eapply Forall_impl; [|exact Hs]. auto.
  - eapply Forall_impl; [|exact Hs]. auto.
Qed.

Lemma matches_endsWith c r p :
  matches r p -> endsWith c r = true -> exists q, p = q ++ [c].
Proof.
  induction 1 as [p0 c0 Hc|c0|r1 r2 p1 p2 _ _ _ IH2|r|r p _ _|p0 lo hi s Hs Hl
                 |p0 s Hn Hs]; cbn [endsWith]; intros He; try discriminate.
  - apply Byte.byte_dec_bl in He. subst. now exists [].
  - destruct (IH2 He) as [q ->]. exists (p1 ++ q). now rewrite app_assoc.
Qed.

(** The header expression matches one optional date and one optional time,
    each ending with a space. *)
Lemma matches_header_end p :
  matches headerRE p -> p = [] \/ exists q, p = q ++ [x20].
Proof.
  unfold headerRE. intros H.
  inversion H as [| |r1 r2 p1 p2 M1 M2| | | |]; subst.
  assert (E2 : p2 = [] \/ exists q, p2 = q ++ [x20]).
  { inversion M2 as [| | |r|r p' M| |]; subst; [now left|right].
    eapply matches_endsWith; [exact M | reflexivity]. }
  assert (E1 : p1 = [] \/ exists q, p1 = q ++ [x20]).
  { inversion M1 as [| | |r|r p' M| |]; subst; [now left|right].
    eapply matches_endsWith; [exact M | reflexivity]. }
  destruct E2 as [-> | [q ->]].
  - rewrite app_nil_r. exact E1.
  - right. exists (p1 ++ q). now rewrite app_assoc.
Qed.

Lemma headerRE_chars : charsIn headerChar headerRE.
Proof.
  unfold headerRE, d, headerChar. cbn [charsIn].
  repeat split; auto 6.
Qed.

(** ** The header *)

(** X2. The header that [Write] takes off and the text it keeps make up the
    message text again; the header is matched by [headerRE], is at most 27
    bytes long, is made of digits, [/], [:], [.] and spaces only, and is
    empty or ends with a space. *)
Theorem X2_header_shape (t : bytes) :
  fst (extractHeader t) ++ snd (extractHeader t) = t /\
  matches headerRE (fst (extractHeader t)) /\
  len (fst (extractHeader t)) <= 27 /\
  Forall headerChar (fst (extractHeader t)) /\
  (fst (extractHeader t) = [] \/ exists q, fst (extractHeader t) = q ++ [x20]).
Proof.
  split; [apply extractHeader_split|].
  assert (M : matches headerRE (fst (extractHeader t))).
  { unfold extractHeader, FindStringSubmatch.
    destruct (rmatch headerRE t Some) as [rest|] eqn:E; cbn [fst].
    - destruct (rmatch_sound _ _ _ _ E) as (p & s' & -> & M & Hk).
      injection Hk as ->. now rewrite firstn_app_exact.
    - unfold headerRE. apply (matches_seq _ _ [] []); constructor. }
  split; [exact M|]. split; [|split].
  - pose proof (matches_maxLen _ _ M eq_refl) as L. cbn in L.
    unfold len. lia.
  - exact (matches_chars headerChar _ _ M headerRE_chars).
  - now apply matches_header_end.
Qed.

(** ** The wrapping loop *)

(** X1. Every turn of the wrapping loop takes at least one byte off [in], so
    the loop ends within as many turns as the text has bytes. *)
Theorem X1_wrapping_loop_ends (color : bool) (width : Z) (indent : bytes)
    (col : Z) (inp : bytes) :
  (inp = [] \/ (length (snd (scanToken inp)) < length inp)%nat) /\
  exists out col',
    wrapLoop (length inp) color width indent col inp = Some (out, col').
Proof.
  split.
  - destruct inp as [|c s]; [now left|right].
    apply scanToken_progress. discriminate.
  - apply wrapLoop_finishes. lia.
Qed.

(** X11. The token that a turn of the loop scans: the white space, the word
    and the punctuation, put together again, are the bytes taken off [in];
    the white space is made of [\s] characters, the word holds none and no
    comma, and the punctuation is nothing or one comma. *)
Theorem X11_token_shape (in0 : bytes) :
  let t := fst (scanToken in0) in
  in0 = ws t ++ bs t ++ punctBytes t ++ snd (scanToken in0) /\
  Forall (fun c => is_space c = true) (ws t) /\
  Forall (fun c => is_black c = true) (bs t) /\
  (punctLen t = 0 /\ punctBytes t = []
   \/ punctLen t = 1 /\ punct t = 44 /\ punctBytes t = [x2c]).
Proof.
  cbv zeta. pose proof (scanToken_scanned in0) as H.
  split; [now apply scanned_split|].
  inversion H as [in3 E Ht E3 | r in2 Hc Ht E3];
    cbn [ws bs punct punctLen punctBytes];
    (split; [apply takeWhile_all|]); (split; [apply takeWhile_all|]).
  - right. repeat split; reflexivity.
  - left. split; reflexivity.
Qed.

(** ** Nothing but white space is lost *)

Lemma ink_app a b : ink (a ++ b) = ink a ++ ink b.
Proof. apply filter_app. Qed.

Lemma ink_white s : Forall (fun c => is_space c = true) s -> ink s = [].
Proof.
  induction 1 as [|c s Hc _ IH]; [reflexivity|].
  unfold ink in *. cbn [filter]. now rewrite Hc.
Qed.

Lemma ink_spaces n : ink (spaces n) = [].
Proof. induction n; [reflexivity | exact IHn]. Qed.

Lemma ink_indentOf prefix : ink (indentOf prefix) = [].
Proof.
  unfold indentOf. destruct (0 <? len prefix);
    [apply ink_spaces | reflexivity].
Qed.

Ltac ink_bytes :=
  flat_bytes; rewrite ?ink_app;
  change (ink newline) with (@nil byte);
  change (ink [x20]) with (@nil byte);
  change (ink []) with (@nil byte);
  cbn [app].

Lemma ink_emitToken color width indent col t out col1 :
  ink indent = [] ->
  emitToken color width indent col t = (out, col1) ->
  ink (Bytes (filter notEsc out)) = ink (bs t) ++ ink (punctBytes t).
Proof.
  intros Hi H. apply emitToken_cases in H. cbv zeta in H.
  destruct H as [(_ & -> & _) | (_ & sp & word & -> & _ & -> & Hw)].
  - rewrite filter_app. cbn [filter notEsc].
    replace (filter notEsc
               (if 0 <? punctLen t then [PPunct (punct t)] else []))
      with (if 0 <? punctLen t then [PPunct (punct t)] else [])
      by (destruct (0 <? punctLen t); reflexivity).
    ink_bytes. now rewrite Hi.
  - rewrite !filter_app.
    replace (filter notEsc
               (if 0 <? punctLen t then [PPunct (punct t)] else []))
      with (if 0 <? punctLen t then [PPunct (punct t)] else [])
      by (destruct (0 <? punctLen t); reflexivity).
    destruct Hw as [-> | (_ & _ & ->)]; destruct (0 <? len (ws t));
      cbn [filter notEsc]; ink_bytes; reflexivity.
Qed.

Lemma ink_wrapped color width indent col inp out colf :
  ink indent = [] ->
  wrapped color width indent col inp out colf ->
  ink (Bytes (filter notEsc out)) = ink inp.
Proof.
  intros Hi. induction 1 as [|col in0 t in3 out col1 outs colf _ Hs He _ IH];
    [reflexivity|].
  rewrite filter_app, Bytes_app, ink_app, IH.
  rewrite (ink_emitToken _ _ _ _ _ _ _ Hi He).
  transitivity (ink (ws t ++ bs t ++ punctBytes t ++ in3));
    [|now rewrite <- (scanned_split _ _ _ Hs)].
  rewrite !ink_app.
  rewrite (ink_white (ws t)); [now rewrite <- app_assoc|].
  inversion Hs; cbn [ws]; apply takeWhile_all.
Qed.

Lemma ink_placeKeyvals width indent kvs :
  ink indent = [] ->
  forall col ns,
  ink (Bytes (placeKeyvals width indent kvs col ns))
  = ink (concat (map ktext kvs)).
Proof.
  intros Hi. induction kvs as [|kvt kvs IH]; intros col ns; [reflexivity|].
  rewrite placeKeyvals_cons. cbn [map concat]. rewrite ink_app.
  destruct (ktextRuneCount kvt + ns + col >? width);
    [|destruct (ns >? 0)]; ink_bytes; rewrite ?Hi, IH; reflexivity.
Qed.

Lemma RuneCount_zero s : RuneCount s <= 0 -> s = [].
Proof.
  destruct s as [|c s]; [reflexivity|]. unfold RuneCount.
  rewrite rcn_cons. lia.
Qed.

Section Further.

Variable error : Type.
Variable pairString : bytes -> iface -> bytes.

(** X3. Rendering loses nothing but white space and changes no order: the
    bytes of the rendering of a record that are neither white space nor part
    of a colour escape sequence are those of the header, the text and the
    key/value texts, one after the other. *)
Theorem X3_ink_preserved (color : bool) (width : Z) (prefix t : bytes)
    (ps : list (bytes * iface)) :
  exists sb,
    render color width prefix (recordText pairString t ps) = Some sb /\
    ink (Bytes (filter notEsc sb))
    = ink (prefix ++ t ++ concat (pairStrings pairString ps)).
Proof.
  destruct (render_finishes color width prefix (recordText pairString t ps))
    as [sb Hr].
  exists sb. split; [exact Hr|]. revert Hr. unfold render.
  destruct (placeText _ _ _ _ _) as [[[out col'] ns]|] eqn:E; [|discriminate].
  intros H. injection H as <-. cbn [filter notEsc].
  rewrite !filter_app, placeKeyvals_notEsc. cbn [filter notEsc].
  ink_bytes. rewrite (ink_placeKeyvals _ _ _ (ink_indentOf prefix)).
  cbn [keyvals recordText]. rewrite ktext_pairText, app_nil_r.
  f_equal. f_equal.
  apply placeText_cases in E. cbn [text textRuneCount recordText] in E.
  destruct E as [(_ & H & _) | (_ & _ & [(_ & -> & _) | (Hz & -> & _)])].
  - eapply ink_wrapped; [apply ink_indentOf | exact H].
  - cbn [filter notEsc]. ink_bytes. reflexivity.
  - now rewrite (RuneCount_zero t Hz).
Qed.

(** ** A record that fits on one line *)

Lemma total_grows ps : forall a,
  a <= fold_left
         (fun n kv => n + (ktextRuneCount (pairText pairString kv) + 1)) ps a.
Proof.
  induction ps as [|kv ps IH]; intros a; cbn [fold_left]; [lia|].
  specialize (IH (a + (ktextRuneCount (pairText pairString kv) + 1))).
  pose proof (RuneCount_nonneg (pairString (fst kv) (snd kv))) as H.
  cbn [ktextRuneCount pairText] in *. lia.
Qed.

Lemma placeKeyvals_fit width indent ps : forall col,
  fold_left (fun n kv => n + (ktextRuneCount (pairText pairString kv) + 1))
            ps col <= width ->
  placeKeyvals width indent (map (pairText pairString) ps) col 1
  = flat_map (fun k => [PSpace; PKeyval (ktext k)])
             (map (pairText pairString) ps).
Proof.
  induction ps as [|kv ps IH]; intros col H; [reflexivity|].
  cbn [map flat_map fold_left] in *. rewrite placeKeyvals_cons.
  pose proof (total_grows ps
                (col + (ktextRuneCount (pairText pairString kv) + 1))) as G.
  destruct (Z.gtb_spec (ktextRuneCount (pairText pairString kv) + 1 + col)
                       width) as [Hw|_]; [lia|].
  change (1 >? 0) with true. cbv iota. cbn [app]. f_equal. f_equal.
  rewrite <- Z.add_assoc,
    (Z.add_comm 1 (ktextRuneCount (pairText pairString kv))).
  now apply IH.
Qed.

(** X4. With colour off, when the text is not empty and the header, the
    text and every pair with a space before it fit within the width
    together ([totalRuneCount] counts just that), the record is written on
    one line: the header, the text as it is, each pair after one space, and
    the newline. *)
Theorem X4_fits_on_one_line (width : Z) (prefix t : bytes)
    (ps : list (bytes * iface)) :
  0 < RuneCount t ->
  len prefix + totalRuneCount (recordText pairString t ps) <= width ->
  render false width prefix (recordText pairString t ps)
  = Some (onOneLine prefix t (map (pairText pairString) ps))
  /\ Bytes (onOneLine prefix t (map (pairText pairString) ps))
     = prefix ++ t
         ++ concat (map (fun s => x20 :: s) (pairStrings pairString ps))
         ++ newline.
Proof.
  intros Ht Hw. split.
  - unfold render, placeText, onOneLine.
    cbn [text textRuneCount keyvals totalRuneCount recordText] in *.
    pose proof (total_grows ps (RuneCount t)) as G.
    destruct (Z.gtb_spec (len prefix + RuneCount t) width) as [H|_]; [lia|].
    cbn [orb]. destruct (Z.gtb_spec (RuneCount t) 0) as [_|H]; [|lia].
    change (0 >? 0) with false. cbv iota. cbn [app].
    rewrite placeKeyvals_fit; [reflexivity|].
    assert (E : forall a b,
              fold_left (fun n kv =>
                           n + (ktextRuneCount (pairText pairString kv) + 1))
                        ps (a + b)
              = a + fold_left (fun n kv =>
                           n + (ktextRuneCount (pairText pairString kv) + 1))
                        ps b).
    { clear. induction ps as [|kv ps IH]; intros a b; cbn [fold_left];
        [reflexivity|]. rewrite <- Z.add_assoc. apply IH. }
    rewrite E. exact Hw.
  - unfold onOneLine. flat_bytes. f_equal. f_equal. f_equal.
    unfold pairStrings. clear.
    induction ps as [|kv ps IH]; [reflexivity|].
    cbn [map flat_map concat]. flat_bytes.
    cbn [ktext pairText app]. now rewrite <- IH.
Qed.

(** ** When [Write] holds a record back *)

Lemma HasPrefix_spec p : forall s,
  HasPrefix s p = true <-> exists q, s = p ++ q.
Proof.
  induction p as [|x p IH]; intros s.
  - split; [intros _; now exists s | intros _; destruct s; reflexivity].
  - destruct s as [|y s]; cbn [HasPrefix].
    + split; [discriminate | intros [q H]; discriminate].
    + split.
      * intros H. apply andb_true_iff in H. destruct H as [H1 H2].
        apply Byte.byte_dec_bl in H1. subst y.
        apply IH in H2. destruct H2 as [q ->]. now exists q.
      * intros [q H]. injection H as -> ->. apply andb_true_iff. split.
        -- now apply Byte.byte_dec_lb.
        -- apply IH. now exists q.
Qed.

(** X5. For a record, [Write] returns without having written anything
    exactly when [Verbose] is off and the text, once the header is off,
    starts with ["debug:"] or with ["trace:"], in lower case. *)
Theorem X5_held_back_iff (w : Writer error) (r : LogRecord) :
  (exists n err, Write pairString w (parsed r) = Some (Return [] n err)) <->
  Verbose w = false /\
  ((exists s, snd (extractHeader (rtext r)) = lit "debug:" ++ s) \/
   (exists s, snd (extractHeader (rtext r)) = lit "trace:" ++ s)).
Proof.
  rewrite Write_record. destruct (extractHeader (rtext r)) as [prefix t].
  cbn [snd]. unfold suppressed, verbosePrefixes. cbn [existsb].
  rewrite orb_false_r.
  rewrite <- !HasPrefix_spec.
  destruct (Verbose w); cbn [negb andb].
  - split; [|intros [H _]; discriminate].
    destruct (render_finishes (colorOutput w) (Width w tt) prefix
                (recordText pairString t (rpairs r))) as [sb ->].
    destruct (Out w (Bytes sb)). intros (n & err & H). discriminate.
  - destruct (HasPrefix t (lit "debug:")); cbn [orb].
    + split; [auto | intros _; eauto].
    + destruct (HasPrefix t (lit "trace:")).
      * split; [auto | intros _; eauto].
      * split; [|intros [_ [H|H]]; discriminate].
        destruct (render_finishes (colorOutput w) (Width w tt) prefix
                    (recordText pairString t (rpairs r))) as [sb ->].
        destruct (Out w (Bytes sb)). intros (n & err & H). discriminate.
Qed.

(** ** The loop over the key/value list *)

(** X9. When the loop over [msg.List] runs through, it has added one
    rendered pair for every two elements of the list, each with the rune
    count of its text, has left the text and its count alone, and has added
    to [totalRuneCount] the count of each pair and one more for the space
    before it. *)
Theorem X9_keyvalLoop_keeps_counts (l : list iface) (m0 m : messageText) :
  keyvalLoop pairString l m0 = Some m ->
  exists new,
    keyvals m = keyvals m0 ++ new /\
    (2 * length new = length l)%nat /\
    Forall countedPair new /\
    text m = text m0 /\ textRuneCount m = textRuneCount m0 /\
    totalRuneCount m
    = totalRuneCount m0
      + fold_right Z.add 0 (map (fun k => ktextRuneCount k + 1) new).
Proof.
  revert m0. induction l as [|x|x y l IH] using list_pair_ind; intros m0 H.
  - injection H as <-. exists []. rewrite app_nil_r. cbn.
    repeat split; auto. lia.
  - destruct x; discriminate.
  - destruct x as [key|tag]; [|discriminate]. cbn [keyvalLoop] in H.
    destruct (IH _ H) as (new & Hk & Hl & Hc & Ht & Hr & Htot).
    cbn [keyvals text textRuneCount totalRuneCount] in *.
    exists ({| ktext := pairString key y;
               ktextRuneCount := RuneCount (pairString key y) |} :: new).
    rewrite Hk, <- app_assoc. cbn [app length map fold_right].
    cbn [ktextRuneCount].
    repeat split; auto; try lia.
    constructor; [reflexivity | assumption].
Qed.

(** ** [NewWriter] and [NoColor] *)

(** X10. Whatever [NewWriter] made of a destination, [NoColor] gives a
    writer that writes to the destination itself, without colour and with
    the width unchanged; calling [NoColor] again changes nothing. *)
Theorem X10_NoColor_after_NewWriter (d : destination error) :
  Out (NoColor (NewWriter d)) = write d /\
  colorOutput (NoColor (NewWriter d)) = false /\
  Width (NoColor (NewWriter d)) = Width (NewWriter d) /\
  Verbose (NoColor (NewWriter d)) = false /\
  NoColor (NoColor (NewWriter d)) = NoColor (NewWriter d).
Proof.
  unfold NewWriter. destruct (fd d) as [f|]; [|repeat split].
  destruct (isTerminal f); [|repeat split].
  destruct (asFile f); repeat split.
Qed.

End Further.

(** ** Escape sequences come in pairs *)

Lemma escPaired_app a b : escPaired a -> escPaired b -> escPaired (a ++ b).
Proof.
  induction 1 as [|w sb Hw _ IH|p sb Hp _ IH]; intros Hb; cbn [app].
  - exact Hb.
  - constructor; auto.
  - apply escPaired_other; auto.
Qed.

Lemma escPaired_plain a : forallb notEsc a = true -> escPaired a.
Proof.
  induction a as [|p a IH]; intros H; [constructor|].
  cbn [forallb] in H. apply andb_true_iff in H. destruct H.
  apply escPaired_other; auto.
Qed.

Lemma escPaired_emitToken color width indent col t out col1 :
  emitToken color width indent col t = (out, col1) -> escPaired out.
Proof.
  intros H. apply emitToken_cases in H. cbv zeta in H.
  destruct H as [(_ & -> & _) | (_ & sp & word & -> & _ & -> & Hw)].
  - apply escPaired_plain. destruct (0 <? punctLen t); reflexivity.
  - apply escPaired_app;
      [apply escPaired_plain; destruct (0 <? len (ws t)); reflexivity|].
    apply escPaired_app;
      [|apply escPaired_plain; destruct (0 <? punctLen t); reflexivity].
    destruct Hw as [-> | (_ & He & ->)].
    + now apply escPaired_plain.
    + constructor; [exact He | constructor].
Qed.

Lemma escPaired_wrapped color width indent col inp out colf :
  wrapped color width indent col inp out colf -> escPaired out.
Proof.
  induction 1 as [|col in0 t in3 out col1 outs colf _ _ He _ IH];
    [constructor|].
  apply escPaired_app; [|exact IH]. eapply escPaired_emitToken; eauto.
Qed.

Lemma forallb_filter_id {A} (f : A -> bool) l :
  filter f l = l -> forallb f l = true.
Proof.
  intros H. rewrite <- H. apply forallb_forall. intros x Hx.
  now apply filter_In in Hx.
Qed.

(** X7. In every rendering the colour escape sequences come in pairs: each
    red sequence is followed at once by a word that starts with an error
    prefix and by the reset sequence, and no escape sequence is written
    anywhere else; with colour off none is written at all. *)
Theorem X7_escapes_paired (color : bool) (width : Z) (prefix : bytes)
    (m : messageText) :
  exists sb,
    render color width prefix m = Some sb /\
    escPaired sb /\
    (color = true \/ filter notEsc sb = sb).
Proof.
  destruct (render_finishes color width prefix m) as [sb Hr].
  exists sb. split; [exact Hr|]. split.
  - revert Hr. unfold render.
    destruct (placeText _ _ _ _ _) as [[[out col'] ns]|] eqn:E;
      [|discriminate].
    intros H. injection H as <-.
    apply escPaired_other; [reflexivity|]. apply escPaired_app.
    + apply placeText_cases in E.
      destruct E as [(_ & H & _) | (_ & _ & [(_ & -> & _) | (_ & -> & _)])].
      * eapply escPaired_wrapped; eauto.
      * now apply escPaired_plain.
      * constructor.
    + apply escPaired_app; [|now apply escPaired_plain].
      apply escPaired_plain, forallb_filter_id, placeKeyvals_notEsc.
  - destruct color; [now left|right].
    destruct (render_finishes true width prefix m) as [sb' Hr'].
    revert Hr Hr'. unfold render, placeText. cbn [orb].
    rewrite orb_false_r, orb_true_r.
    destruct (len prefix + textRuneCount m >? width).
    + rewrite wrapLoop_colour.
      destruct (wrapLoop _ true _ _ _ _) as [[o c]|]; [|discriminate].
      cbn [option_map dropEsc fst snd]. intros H _. injection H as <-.
      cbn [filter notEsc]. rewrite !filter_app, placeKeyvals_notEsc.
      f_equal. f_equal. clear. induction o as [|p o IH]; [reflexivity|].
      cbn [filter]. destruct (notEsc p) eqn:E; [|exact IH].
      cbn [filter]. rewrite E. now rewrite IH.
    + intros H _. destruct (textRuneCount m >? 0); cbn in H;
        injection H as <-; cbn [filter notEsc app];
        rewrite ?filter_app, placeKeyvals_notEsc; reflexivity.
Qed.

(** ** Continuation lines *)

Lemma breaksIndented_plain indent a :
  forallb noNewline a = true ->
  forall b, breaksIndented indent b -> breaksIndented indent (a ++ b).
Proof.
  induction a as [|p a IH]; intros H b Hb; [exact Hb|].
  cbn [forallb] in H. apply andb_true_iff in H. destruct H as [Hp H].
  cbn [app]. destruct p; try discriminate; cbn [breaksIndented]; auto.
Qed.

Lemma breaksIndented_wrap indent a :
  forallb noNewline a = true ->
  forall b, breaksIndented indent b ->
  breaksIndented indent ((PNewline :: PIndent indent :: a) ++ b).
Proof.
  intros H b Hb. cbn [app breaksIndented]. split; [right; eauto|].
  now apply breaksIndented_plain.
Qed.

Lemma breaksIndented_emitToken color width indent col t out col1 :
  emitToken color width indent col t = (out, col1) ->
  forall b, breaksIndented indent b -> breaksIndented indent (out ++ b).
Proof.
  intros H b Hb. apply emitToken_cases in H. cbv zeta in H.
  destruct H as [(_ & -> & _) | (_ & sp & word & -> & _ & -> & Hw)].
  - apply (breaksIndented_wrap indent
             (PWord (bs t)
                :: (if 0 <? punctLen t then [PPunct (punct t)] else [])));
      [|exact Hb].
    destruct (0 <? punctLen t); reflexivity.
  - apply breaksIndented_plain; [|exact Hb].
    destruct Hw as [-> | (_ & _ & ->)]; destruct (0 <? len (ws t));
      destruct (0 <? punctLen t); reflexivity.
Qed.

Lemma breaksIndented_wrapped color width indent col inp out colf :
  wrapped color width indent col inp out colf ->
  forall b, breaksIndented indent b -> breaksIndented indent (out ++ b).
Proof.
  induction 1 as [|col in0 t in3 out col1 outs colf _ _ He _ IH];
    intros b Hb; [exact Hb|].
  rewrite <- app_assoc. eapply breaksIndented_emitToken; eauto.
Qed.

Lemma breaksIndented_placeKeyvals width indent kvs :
  forall col ns b, breaksIndented indent b ->
  breaksIndented indent (placeKeyvals width indent kvs col ns ++ b).
Proof.
  induction kvs as [|kvt kvs IH]; intros col ns b Hb; [exact Hb|].
  rewrite placeKeyvals_cons.
  destruct (ktextRuneCount kvt + ns + col >? width);
    [|destruct (ns >? 0)]; cbn [app breaksIndented]; auto.
  split; [right; eauto | auto].
Qed.

(** In every rendering each write of the line break but the final one is
    followed at once by the write of the indent, which is made of as many
    spaces as the header has bytes, or of four when there is no header. *)
Lemma render_breaksIndented (color : bool) (width : Z) (prefix : bytes)
    (m : messageText) :
  exists sb,
    render color width prefix m = Some sb /\
    breaksIndented (indentOf prefix) sb /\
    indentOf prefix
    = spaces (match prefix with [] => 4 | _ => length prefix end).
Proof.
  destruct (render_finishes color width prefix m) as [sb Hr].
  exists sb. split; [exact Hr|]. split.
  - revert Hr. unfold render.
    destruct (placeText _ _ _ _ _) as [[[out col'] ns]|] eqn:E;
      [|discriminate].
    intros H. injection H as <-. cbn [breaksIndented].
    assert (Hend : breaksIndented (indentOf prefix) [PNewline])
      by (cbn; auto).
    apply placeText_cases in E.
    destruct E as [(_ & H & _) | (_ & _ & [(_ & -> & _) | (_ & -> & _)])].
    + eapply breaksIndented_wrapped; [exact H|].
      now apply breaksIndented_placeKeyvals.
    + cbn [app breaksIndented]. now apply breaksIndented_placeKeyvals.
    + cbn [app]. now apply breaksIndented_placeKeyvals.
  - unfold indentOf. destruct prefix as [|c p]; [reflexivity|].
    rewrite len_pos_iff. reflexivity.
Qed.

(** ** Pairs are set apart *)

Lemma pairsSeparated_text prev out :
  keyvalsOf out = [] ->
  forall rest,
  (forall prev', pairsSeparated prev' rest) ->
  pairsSeparated prev (out ++ rest).
Proof.
  revert prev. induction out as [|p out IH]; intros prev Hk rest Hr.
  - apply Hr.
  - cbn [app pairsSeparated]. destruct p; cbn [keyvalsOf] in Hk;
      try discriminate; (split; [destruct prev; exact I | now apply IH]).
Qed.

Lemma pairsSeparated_placeKeyvals width indent kvs :
  forall col prev,
  pairsSeparated prev (placeKeyvals width indent kvs col 1 ++ [PNewline]).
Proof.
  induction kvs as [|kvt kvs IH]; intros col prev.
  - cbn. destruct prev; auto.
  - rewrite placeKeyvals_cons. change (1 >? 0) with true. cbv iota.
    destruct (ktextRuneCount kvt + 1 + col >? width); cbn [app].
    + split; [destruct prev; exact I|].
      repeat match goal with
             | |- pairsSeparated _ (_ :: _) => split; [exact I|]
             end.
      apply IH.
    + split; [destruct prev; exact I|].
      repeat match goal with
             | |- pairsSeparated _ (_ :: _) => split; [exact I|]
             end.
      apply IH.
Qed.

(** X12. In every rendering the header is written first, and a key/value
    text is written right after a space, right after the indent of a new
    line, or right after the header: never right after a word, a comma or
    another pair. *)
Theorem X12_pairs_set_apart (color : bool) (width : Z) (prefix : bytes)
    (m : messageText) :
  exists rest,
    render color width prefix m = Some (PPrefix prefix :: rest) /\
    pairsSeparated (PPrefix prefix) rest.
Proof.
  unfold render.
  destruct (placeText color width (indentOf prefix) m (len prefix))
    as [[[out col'] ns]|] eqn:E.
  - eexists. split; [reflexivity|].
    pose proof (keyvalsOf_placeText _ _ _ _ _ _ _ _ E) as Hk.
    apply placeText_cases in E.
    destruct E as [(_ & _ & ->)
                  | (_ & _ & [(_ & _ & _ & ->) | (_ & -> & _ & ->)])].
    + apply pairsSeparated_text; [exact Hk|].
      intros prev'. apply pairsSeparated_placeKeyvals.
    + apply pairsSeparated_text; [exact Hk|].
      intros prev'. apply pairsSeparated_placeKeyvals.
    + cbn [app]. destruct (keyvals m) as [|kvt kvs]; [cbn; auto|].
      rewrite placeKeyvals_cons. change (0 >? 0) with false. cbv iota.
      destruct (ktextRuneCount kvt + 0 + col' >? width); cbn [app];
        repeat match goal with
               | |- pairsSeparated _ (_ :: _) => split; [exact I|]
               end;
        apply pairsSeparated_placeKeyvals.
  - destruct (render_finishes color width prefix m) as [sb H].
    unfold render in H. rewrite E in H. discriminate.
Qed.

(** ** White space of the text comes out as spaces *)

Lemma plainSpaces_black w : blackBytes w -> plainSpaces w.
Proof.
  intros H. eapply Forall_impl; [|exact H].
  intros c Hc Hs. rewrite Hc in Hs. discriminate.
Qed.

Lemma plainSpaces_wrapped color width indent col inp out colf :
  wrapped color width indent col inp out colf ->
  plainSpaces (Bytes (filter notBreak out)).
Proof.
  induction 1 as [|col in0 t in3 out col1 outs colf _ Hs He _ IH];
    [constructor|].
  destruct (turn_content _ _ _ _ _ _ _ _ _ Hs He)
    as (sp & w & E & Hb & Hsp & _).
  rewrite filter_app, Bytes_app, E. apply Forall_app. split; [|exact IH].
  apply Forall_app. split; [|now apply plainSpaces_black].
  destruct Hsp as [-> | ->]; repeat constructor.
Qed.

(** X13. When the message text is laid out by the wrapping loop, no tab,
    newline, form feed or carriage return of the text is written: apart
    from the line breaks and indents put in by the wrapper, the only
    white-space character written for the text is the space. *)
Theorem X13_only_plain_spaces (color : bool) (width : Z) (indent : bytes)
    (m : messageText) (col : Z) (out : list piece) (col' ns : Z) :
  (col + textRuneCount m >? width) || color = true ->
  placeText color width indent m col = Some (out, col', ns) ->
  plainSpaces (Bytes (filter notBreak out)).
Proof.
  intros Hc H. apply placeText_cases in H.
  destruct H as [(_ & H & _) | (Hle & -> & _)].
  - eapply plainSpaces_wrapped; eauto.
  - rewrite orb_false_r in Hc. apply Z.gtb_lt in Hc. lia.
Qed.

(** ** Which words are errors *)

Lemma EqualFold_spec s : forall t,
  EqualFold s t = true <-> map lower s = map lower t.
Proof.
  induction s as [|x s IH]; intros [|y t]; cbn [EqualFold map];
    try (split; [reflexivity || discriminate | reflexivity || discriminate]).
  split.
  - intros H. apply andb_true_iff in H. destruct H as [H1 H2].
    apply Z.eqb_eq in H1. apply IH in H2. now rewrite H1, H2.
  - intros H. injection H as H1 H2. apply andb_true_iff. split.
    + now apply Z.eqb_eq.
    + now apply IH.
Qed.

(** X14. A word counts as an error exactly when it starts with the six
    characters of ["error:"], each in either ASCII case. *)
Theorem X14_isError_iff (b : bytes) :
  isError b = true <->
  exists p s, b = p ++ s /\ map lower p = map lower (lit "error:").
Proof.
  unfold isError, errorPrefixes. cbn [existsb]. rewrite orb_false_r.
  split.
  - intros H. apply andb_true_iff in H. destruct H as [_ H].
    apply EqualFold_spec in H.
    exists (firstn (length (lit "error:")) b),
           (skipn (length (lit "error:")) b).
    split; [now rewrite firstn_skipn | exact H].
  - intros (p & s & -> & H).
    assert (L : length p = length (lit "error:")).
    { rewrite <- (length_map lower p), H. apply length_map. }
    apply andb_true_iff. split.
    + apply Z.leb_le. unfold len. rewrite length_app. lia.
    + apply EqualFold_spec. rewrite <- L, firstn_app, Nat.sub_diag.
      rewrite firstn_all. cbn [firstn]. now rewrite app_nil_r.
Qed.

(** ** Examples for the further properties *)

Lemma X4_witness :
  0 < RuneCount (lit "hello world") /\
  len (lit "12:00:00 ")
  + totalRuneCount (recordText exampleString (lit "hello world")
                               (rpairs helloRecord)) <= 80 /\
  render false 80 (lit "12:00:00 ")
         (recordText exampleString (lit "hello world") (rpairs helloRecord))
  = Some (onOneLine (lit "12:00:00 ") (lit "hello world")
                    (map (pairText exampleString) (rpairs helloRecord)))
  /\ Bytes (onOneLine (lit "12:00:00 ") (lit "hello world")
                      (map (pairText exampleString) (rpairs helloRecord)))
     = lit "12:00:00 " ++ lit "hello world"
         ++ concat (map (fun s => x20 :: s)
                        (pairStrings exampleString (rpairs helloRecord)))
         ++ newline.
Proof.
  assert (H1 : 0 < RuneCount (lit "hello world")) by reflexivity.
  assert (H2 : len (lit "12:00:00 ")
               + totalRuneCount (recordText exampleString (lit "hello world")
                                            (rpairs helloRecord)) <= 80)
    by (vm_compute; discriminate).
  split; [exact H1|]. split; [exact H2|].
  exact (X4_fits_on_one_line exampleString 80 (lit "12:00:00 ")
           (lit "hello world") (rpairs helloRecord) H1 H2).
Defined.

Lemma X9_witness :
  keyvalLoop exampleString (flattenPairs (rpairs helloRecord))
             {| text := lit "hello world"; textRuneCount := 11;
                totalRuneCount := 11; keyvals := [] |}
  = Some (recordText exampleString (lit "hello world") (rpairs helloRecord))
  /\
  exists new,
    keyvals (recordText exampleString (lit "hello world") (rpairs helloRecord))
    = [] ++ new /\
    (2 * length new = length (flattenPairs (rpairs helloRecord)))%nat /\
    Forall countedPair new /\
    lit "hello world" = lit "hello world" /\
    RuneCount (lit "hello world") = 11 /\
    totalRuneCount (recordText exampleString (lit "hello world")
                               (rpairs helloRecord))
    = 11 + fold_right Z.add 0 (map (fun k => ktextRuneCount k + 1) new).
Proof.
  assert (H : keyvalLoop exampleString (flattenPairs (rpairs helloRecord))
                {| text := lit "hello world"; textRuneCount := 11;
                   totalRuneCount := 11; keyvals := [] |}
              = Some (recordText exampleString (lit "hello world")
                                 (rpairs helloRecord))) by reflexivity.
  split; [exact H|].
  exact (X9_keyvalLoop_keeps_counts exampleString _ _ _ H).
Defined.

Lemma X13_witness :
  let m := recordText exampleString
             (lit "a" ++ [x09; x0a] ++ lit "b") [] in
  (0 + textRuneCount m >? 80) || true = true /\
  placeText true 80 (lit "    ") m 0
  = Some ([PWord (lit "a"); PSpace; PWord (lit "b")], 3, 1) /\
  plainSpaces (Bytes (filter notBreak
                        [PWord (lit "a"); PSpace; PWord (lit "b")])).
Proof.
  cbv zeta.
  assert (H1 : (0 + textRuneCount
                      (recordText exampleString
                         (lit "a" ++ [x09; x0a] ++ lit "b") []) >? 80)
               || true = true) by reflexivity.
  assert (H2 : placeText true 80 (lit "    ")
                 (recordText exampleString
                    (lit "a" ++ [x09; x0a] ++ lit "b") []) 0
               = Some ([PWord (lit "a"); PSpace; PWord (lit "b")], 3, 1))
    by reflexivity.
  split; [exact H1|]. split; [exact H2|].
  exact (X13_only_plain_spaces true 80 (lit "    ")
           (recordText exampleString (lit "a" ++ [x09; x0a] ++ lit "b") [])
           0 _ _ _ H1 H2).
Defined.

(** ** [Write] on a struct with nil fields *)

Section NilFields.

Variable error : Type.
Variable pairString : bytes -> iface -> bytes.

(** On a struct whose [Out] and [Width] are set, [Nilable.Write] is
    [Write]. *)
Lemma Nilable_Write_set (w : Nilable.Writer error) out widthFunc msg :
  Nilable.Out w = Some out -> Nilable.Width w = Some widthFunc ->
  Nilable.Write pairString w msg
  = Write pairString
      {| Out := out; Width := widthFunc; Verbose := Nilable.Verbose w;
         colorOutput := Nilable.colorOutput w; origOut := out |} msg.
Proof.
  intros Ho Hw. unfold Nilable.Write, Write. rewrite Ho, Hw.
  cbn [Out Width Verbose colorOutput].
  destruct (extractHeader (Text msg)) as [prefix t].
  destruct (suppressed (Nilable.Verbose w) t); [reflexivity|].
  destruct (keyvalLoop pairString (List msg) _) as [m|]; [|reflexivity].
  destruct (render _ _ _ _); reflexivity.
Qed.

Lemma Nilable_Write_nilable (w : Writer error) msg :
  Nilable.Write pairString (nilable w) msg = Write pairString w msg.
Proof.
  unfold Nilable.Write, Write, nilable.
  cbn [Nilable.Out Nilable.Width Nilable.Verbose Nilable.colorOutput].
  destruct (extractHeader (Text msg)) as [prefix t].
  destruct (suppressed (Verbose w) t); [reflexivity|].
  destruct (keyvalLoop pairString (List msg) _) as [m|]; [|reflexivity].
  destruct (render _ _ _ _); reflexivity.
Qed.

(** C9, amended. For every input whose parsed key/value list has even
    length and a string at every even index, and every [Writer] struct
    whose [Width] and [Out] are not nil, [Write] runs to its end and
    returns: neither the index [msg.List[i+1]] nor the assertion
    [msg.List[i].(string)] panics, and nothing else in [Write] does. *)
Theorem C9_write_does_not_panic (w : Nilable.Writer error) (msg : Message) :
  evenStrings (List msg) ->
  Nilable.Width w <> None ->
  Nilable.Out w <> None ->
  exists written n err,
    Nilable.Write pairString w msg = Some (Return written n err).
Proof.
  intros Hl Hw Ho.
  destruct (Nilable.Width w) as [widthFunc|] eqn:Ew; [|congruence].
  destruct (Nilable.Out w) as [out|] eqn:Eo; [|congruence].
  rewrite (Nilable_Write_set w out widthFunc msg Eo Ew).
  now apply Write_returns.
Qed.

(** X6. [Write] panics exactly when the message is not held back by the
    verbosity filter and the [Width] of the struct is nil, or the key/value
    list has odd length or holds something other than a string at an even
    index, or the [Out] of the struct is nil.  A message that is held back
    returns before any of these is looked at. *)
Theorem X6_panics_iff (w : Nilable.Writer error) (msg : Message) :
  Nilable.Write pairString w msg = Some Panic <->
  suppressed (Nilable.Verbose w) (snd (extractHeader (Text msg))) = false /\
  (Nilable.Width w = None \/ ~ evenStrings (List msg)
   \/ Nilable.Out w = None).
Proof.
  unfold Nilable.Write. destruct (extractHeader (Text msg)) as [prefix t].
  cbn [snd]. destruct (suppressed (Nilable.Verbose w) t).
  { split; [discriminate | intros [H _]; discriminate]. }
  destruct (Nilable.Width w) as [widthFunc|]; [|split; auto].
  pose proof (keyvalLoop_runs pairString (List msg)
                {| text := t; textRuneCount := RuneCount t;
                   totalRuneCount := RuneCount t; keyvals := [] |}) as K.
  destruct (keyvalLoop pairString (List msg) _) as [m|].
  - assert (He : evenStrings (List msg)) by (apply K; eauto).
    destruct (render_finishes (Nilable.colorOutput w) (widthFunc tt)
                prefix m) as [sb ->].
    destruct (Nilable.Out w) as [out|].
    + destruct (out (Bytes sb)). split; [discriminate|].
      intros [_ [H|[H|H]]]; [discriminate | contradiction | discriminate].
    + split; auto.
  - split; [|reflexivity]. intros _. split; [reflexivity|].
    right. left. intros H. apply K in H. destruct H as [m' H]. discriminate.
Qed.

End NilFields.

(** C9, as stated, fails: the list precondition is not the only one.  On a
    struct whose [Width] is nil, or whose [Out] is nil, [Write] panics for a
    record whose list is well formed. *)
Lemma C9_counterexample :
  evenStrings (List (parsed helloRecord)) /\
  Nilable.Write exampleString noWidthWriter (parsed helloRecord)
  = Some Panic /\
  Nilable.Write exampleString noOutWriter (parsed helloRecord)
  = Some Panic.
Proof.
  split; [apply flattenPairs_evenStrings|]. split; reflexivity.
Qed.

Lemma C9_witness :
  evenStrings (List (parsed helloRecord)) /\
  Nilable.Width (nilable (exampleWriter 80 false false)) <> None /\
  Nilable.Out (nilable (exampleWriter 80 false false)) <> None /\
  exists written n err,
    Nilable.Write exampleString (nilable (exampleWriter 80 false false))
                  (parsed helloRecord) = Some (Return written n err).
Proof.
  assert (H : evenStrings (List (parsed helloRecord))).
  { split; [exists 2%nat; reflexivity|].
    intros [|[|[|[|i]]]] x [j Hj] Hx; try lia; cbn in Hx.
    - injection Hx as <-. eauto.
    - injection Hx as <-. eauto.
    - destruct i; discriminate. }
  assert (Hw : Nilable.Width (nilable (exampleWriter 80 false false))
               <> None) by discriminate.
  assert (Ho : Nilable.Out (nilable (exampleWriter 80 false false))
               <> None) by discriminate.
  split; [exact H|]. split; [exact Hw|]. split; [exact Ho|].
  exact (C9_write_does_not_panic bytes exampleString
           (nilable (exampleWriter 80 false false)) (parsed helloRecord)
           H Hw Ho).
Defined.

(** ** Line breaks in the emitted bytes *)

Lemma noNl_app a b : noNl a -> noNl b -> noNl (a ++ b).
Proof. intros Ha Hb. apply Forall_app. now split. Qed.

Lemma noNl_spaces n : noNl (spaces n).
Proof. induction n; constructor; [discriminate | assumption]. Qed.

Lemma noNl_indentOf prefix : noNl (indentOf prefix).
Proof.
  unfold indentOf. destruct (0 <? len prefix); [apply noNl_spaces|].
  repeat constructor; discriminate.
Qed.

Lemma noNl_black s : Forall (fun c => is_black c = true) s -> noNl s.
Proof.
  intros H. eapply Forall_impl; [|exact H].
  intros c Hc ->. discriminate.
Qed.

Lemma noNl_header s : Forall headerChar s -> noNl s.
Proof.
  intros H. eapply Forall_impl; [|exact H].
  intros c [Hc|[Hc|[Hc|[Hc|Hc]]]] ->; discriminate.
Qed.

Lemma extractHeader_matches t : matches headerRE (fst (extractHeader t)).
Proof.
  unfold extractHeader, FindStringSubmatch.
  destruct (rmatch headerRE t Some) as [rest|] eqn:E; cbn [fst].
  - destruct (rmatch_sound _ _ _ _ E) as (p & s' & -> & M & Hk).
    injection Hk as ->. now rewrite firstn_app_exact.
  - unfold headerRE. apply (matches_seq _ _ [] []); constructor.
Qed.

Lemma split_after_clean pb : noNl pb ->
  forall s a b, pb ++ s = a ++ x0a :: b ->
  exists a', a = pb ++ a' /\ s = a' ++ x0a :: b.
Proof.
  induction 1 as [|c pb Hc _ IH]; intros s a b H.
  - now exists a.
  - destruct a as [|y a]; cbn [app] in H.
    + injection H as H _. congruence.
    + injection H as <- H. destruct (IH _ _ _ H) as (a' & -> & ->).
      now exists a'.
Qed.

(** From the writes to the bytes: when no write but the line break holds a
    newline byte, every newline byte but a last one is followed by the
    indent. *)
Lemma nlIndented_Bytes indent sb :
  Forall cleanPiece sb -> breaksIndented indent sb ->
  nlIndented indent (Bytes sb).
Proof.
  induction 1 as [|p sb Hp Hc IH]; intros Hb a b E.
  - destruct a; discriminate.
  - rewrite Bytes_cons in E.
    assert (Hcase : p = PNewline \/ noNl (piece_bytes p))
      by (destruct p; auto).
    destruct Hcase as [-> | Hn].
    + cbn [breaksIndented] in Hb. destruct Hb as [Hnext Hb].
      cbn [piece_bytes newline app] in E. destruct a as [|y a].
      * injection E as <-. destruct Hnext as [-> | [rest ->]];
          [now left|right].
        exists (Bytes rest). reflexivity.
      * injection E as _ E. exact (IH Hb a b E).
    + assert (Hb' : breaksIndented indent sb)
        by (destruct p; cbn [breaksIndented] in Hb;
            try exact Hb; exact (proj2 Hb)).
      destruct (split_after_clean _ Hn _ _ _ E) as (a' & _ & E').
      exact (IH Hb' a' b E').
Qed.

Lemma clean_emitToken color width indent col in0 t in3 out col1 :
  noNl indent ->
  scanned in0 t in3 ->
  emitToken color width indent col t = (out, col1) ->
  Forall cleanPiece out.
Proof.
  intros Hi Hs He.
  assert (Hb : noNl (bs t))
    by (apply noNl_black; inversion Hs; cbn [bs]; apply takeWhile_all).
  assert (Hp : Forall cleanPiece
                 (if 0 <? punctLen t then [PPunct (punct t)] else [])).
  { destruct (scanned_punct _ _ _ Hs) as [-> | [-> ->]]; cbn;
      repeat constructor; discriminate. }
  apply emitToken_cases in He. cbv zeta in He.
  destruct He as [(_ & -> & _) | (_ & sp & word & -> & _ & -> & Hw)].
  - apply Forall_app. split; [|exact Hp].
    repeat constructor; assumption.
  - apply Forall_app. split.
    + destruct (0 <? len (ws t)); repeat constructor. discriminate.
    + apply Forall_app. split; [|exact Hp].
      destruct Hw as [-> | (_ & _ & ->)]; repeat constructor;
        try assumption; discriminate.
Qed.

Lemma clean_wrapped color width indent col inp out colf :
  noNl indent ->
  wrapped color width indent col inp out colf -> Forall cleanPiece out.
Proof.
  intros Hi. induction 1 as [|col in0 t in3 out col1 outs colf _ Hs He _ IH];
    [constructor|].
  apply Forall_app. split; [|exact IH]. eapply clean_emitToken; eauto.
Qed.

Lemma clean_placeKeyvals width indent kvs :
  noNl indent ->
  Forall (fun k => noNl (ktext k)) kvs ->
  forall col ns, Forall cleanPiece (placeKeyvals width indent kvs col ns).
Proof.
  intros Hi. induction 1 as [|kvt kvs Hk _ IH]; intros col ns;
    [constructor|].
  rewrite placeKeyvals_cons.
  destruct (ktextRuneCount kvt + ns + col >? width);
    [|destruct (ns >? 0)]; repeat constructor; auto; discriminate.
Qed.

Section Breaks.

Variable pairString : bytes -> iface -> bytes.

(** X8. For a record whose key/value texts hold no newline byte, and whose
    text holds none either unless it is laid out by the wrapping loop
    (colour on, or the text does not fit after the header), every newline
    byte of the emitted bytes but the last byte is followed at once by the
    indent, which is made of as many spaces as the header has bytes, or of
    four when there is no header. *)
Theorem X8_breaks_are_indented (color : bool) (width : Z) (r : LogRecord) :
  Forall noNl (pairStrings pairString (rpairs r)) ->
  color = true
  \/ len (fst (extractHeader (rtext r)))
     + RuneCount (snd (extractHeader (rtext r))) > width
  \/ noNl (snd (extractHeader (rtext r))) ->
  exists sb,
    render color width (fst (extractHeader (rtext r)))
           (recordText pairString (snd (extractHeader (rtext r))) (rpairs r))
    = Some sb /\
    nlIndented (indentOf (fst (extractHeader (rtext r)))) (Bytes sb) /\
    indentOf (fst (extractHeader (rtext r)))
    = spaces (match fst (extractHeader (rtext r)) with
              | [] => 4
              | _ => length (fst (extractHeader (rtext r)))
              end).
Proof.
  pose proof (extractHeader_matches (rtext r)) as M.
  set (prefix := fst (extractHeader (rtext r))) in *.
  set (t := snd (extractHeader (rtext r))).
  intros Hkv Ht.
  assert (Hpre : noNl prefix)
    by (apply noNl_header, (matches_chars headerChar _ _ M headerRE_chars)).
  destruct (render_breaksIndented color width prefix
              (recordText pairString t (rpairs r))) as (sb & Hr & Hb & Hi).
  exists sb. split; [exact Hr|]. split; [|exact Hi].
  apply nlIndented_Bytes; [|exact Hb].
  revert Hr. unfold render.
  destruct (placeText _ _ _ _ _) as [[[out col'] ns]|] eqn:E; [|discriminate].
  intros H. injection H as <-.
  constructor; [exact Hpre|]. apply Forall_app. split.
  - apply placeText_cases in E. cbn [text textRuneCount recordText] in E.
    destruct E as [(_ & H & _)
                  | (Hle & Hc & [(_ & -> & _) | (_ & -> & _)])].
    + eapply clean_wrapped; [apply noNl_indentOf | exact H].
    + repeat constructor. cbn [piece_bytes].
      destruct Ht as [Ht | [Ht | Ht]]; [congruence | lia | exact Ht].
    + constructor.
  - apply Forall_app. split; [|repeat constructor].
    apply clean_placeKeyvals; [apply noNl_indentOf|].
    cbn [keyvals recordText]. unfold pairStrings in Hkv.
    rewrite Forall_map in *. exact Hkv.
Qed.

End Breaks.

Lemma X8_witness :
  Forall noNl (pairStrings exampleString (rpairs helloRecord)) /\
  (false = true
   \/ len (fst (extractHeader (rtext helloRecord)))
      + RuneCount (snd (extractHeader (rtext helloRecord))) > 14
   \/ noNl (snd (extractHeader (rtext helloRecord)))) /\
  exists sb,
    render false 14 (fst (extractHeader (rtext helloRecord)))
           (recordText exampleString (snd (extractHeader (rtext helloRecord)))
                       (rpairs helloRecord))
    = Some sb /\
    nlIndented (indentOf (fst (extractHeader (rtext helloRecord))))
               (Bytes sb) /\
    indentOf (fst (extractHeader (rtext helloRecord)))
    = spaces (match fst (extractHeader (rtext helloRecord)) with
              | [] => 4
              | _ => length (fst (extractHeader (rtext helloRecord)))
              end).
Proof.
  assert (H1 : Forall noNl (pairStrings exampleString (rpairs helloRecord)))
    by (repeat constructor; discriminate).
  assert (H2 : false = true
               \/ len (fst (extractHeader (rtext helloRecord)))
                  + RuneCount (snd (extractHeader (rtext helloRecord))) > 14
               \/ noNl (snd (extractHeader (rtext helloRecord))))
    by (right; right; repeat constructor; discriminate).
  split; [exact H1|]. split; [exact H2|].
  exact (X8_breaks_are_indented exampleString false 14 helloRecord H1 H2).
Defined.
